(** * The RSS feed endpoint of the blog ([src/pages/rss.xml.ts])

    A shallow embedding of the handler [GET] and of the three callbacks it
    passes to the framework, followed by the properties of the feed
    descriptor that the handler hands to the serializer [rss].  Dates may
    be missing or invalid, differences of time values are doubles, and
    the sort is the one of the engine. *)

From Stdlib Require Import ZArith String List Sorting.Sorted Sorting.Permutation.
From stdpp Require Import base list strings sorting.

Local Open Scope string_scope.
Local Open Scope Z_scope.

#[local] Arguments Nat.div : simpl never.
#[local] Arguments Z.div : simpl never.
#[local] Arguments Z.modulo : simpl never.
#[local] Arguments Z.pow : simpl never.
#[local] Arguments Z.log2 : simpl never.

(** ** JavaScript values and completions *)

(** The only exception the handler's own code can raise: reading a property
    of [undefined]. *)
Inductive exn : Type :=
  | TypeError.

(** A completion is either normal, with a value, or abrupt, with a thrown
    exception. *)
Inductive outcome (A : Type) : Type :=
  | Return (a : A)
  | Throw (e : exn).
Arguments Return {A} a.
Arguments Throw {A} e.

#[global] Instance outcome_ret : MRet outcome := fun _ a => Return a.
#[global] Instance outcome_bind : MBind outcome := fun _ _ f m =>
  match m with
  | Return a => f a
  | Throw e => Throw e
  end.

(** ** Numbers and dates *)

(** The numbers the handler computes with are the time values of dates
    and their differences: doubles that are integers, or [NaN]. *)
Inductive number : Type :=
  | NaN
  | Num (z : Z).

(** The double nearest to a positive integer [a], ties to the even
    significand: integers up to [2^53] are doubles; above, with
    [e = log2 a], the doubles are the multiples of [2^(e-52)]. *)
Definition roundAbs (a : Z) : Z :=
  let e := Z.log2 a in
  if e <? 53 then a
  else
    let q := 2 ^ (e - 52) in
    let k := a / q in
    let r := a mod q in
    if 2 * r <? q then k * q
    else if q <? 2 * r then (k + 1) * q
    else if Z.even k then k * q
    else (k + 1) * q.

Definition roundDouble (z : Z) : Z := Z.sgn z * roundAbs (Z.abs z).

(** [x - y] on numbers: the exact difference, rounded. *)
Definition number_sub (x y : number) : number :=
  match x, y with
  | Num a, Num b => Num (roundDouble (a - b))
  | _, _ => NaN
  end.

(** A [Date] object.  Its time value is an integer number of milliseconds
    since the epoch, of magnitude at most 8.64e15, or [NaN] for an Invalid
    Date; a time out of that range stands for the Invalid Date that the
    constructor makes of it. *)
Inductive Date : Type :=
  | InvalidDate
  | Time (t : Z).

Definition timeValue (d : Date) : number :=
  match d with
  | InvalidDate => NaN
  | Time t => if Z.abs t <=? 8640000000000000 then Num t else NaN
  end.

(** ** The content collection *)

(** The [data] object of a blog entry: the front matter of a post. *)
Module BlogData.
Record t : Type := {
  title : string;
  description : string;
  pubDate : option Date;
  updatedDate : option Date;
  tags : list string;
  draft : option bool
}.
End BlogData.

(** An entry of the collection, as [getCollection] returns it. *)
Record CollectionEntry : Type := {
  slug : string;
  body : string;
  data : BlogData.t
}.

(** ** The argument of [rss] *)

Module RSSFeedItem.
Record t : Type := {
  title : string;
  description : string;
  pubDate : option Date;
  link : string;
  categories : list string
}.
End RSSFeedItem.

Module RSSOptions.
Record t : Type := {
  title : string;
  description : string;
  site : string;
  items : list RSSFeedItem.t;
  customData : string
}.
End RSSOptions.

(** [APIContext], restricted to the one property the handler reads:
    [context.site], the configured site URL when there is one. *)
Module APIContext.
Record t : Type := {
  site : option string
}.
End APIContext.

(** ** The heap and the handler's monad *)

(** Arrays are mutable objects: an array is a location in the heap, and
    [Array.prototype.sort] changes the array it is called on.  The world
    also holds the content store that [getCollection] reads. *)
Abbreviation loc := nat (only parsing).

Record World : Type := {
  collections : string → list CollectionEntry;
  heap : list (list CollectionEntry)
}.

Definition M (A : Type) : Type := World → outcome A * World.

#[global] Instance M_ret : MRet M := fun _ a w => (Return a, w).
#[global] Instance M_bind : MBind M := fun _ _ f m w =>
  match m w with
  | (Return a, w') => f a w'
  | (Throw e, w') => (Throw e, w')
  end.

Definition lift {A : Type} (o : outcome A) : M A := fun w => (o, w).

(** [new Array]: a fresh location holding [arr]. *)
Definition alloc (arr : list CollectionEntry) : M loc := fun w =>
  (Return (length (heap w)),
   {| collections := collections w; heap := heap w ++ [arr] |}).

(** Reading an array; every location the handler holds is allocated. *)
Definition read (l : loc) : M (list CollectionEntry) := fun w =>
  (Return (heap w !!! l), w).

Definition write (l : loc) (arr : list CollectionEntry) : M unit := fun w =>
  (Return tt, {| collections := collections w; heap := <[l := arr]> (heap w) |}).

(** ** Framework and built-in operations *)

(** [getCollection(name, filter)]: the entries of the named collection that
    satisfy [filter], in the order of the store, in a new array. *)
Definition getCollection (name : string) (filter : CollectionEntry → bool) : M loc :=
  fun w => alloc (List.filter filter (collections w name)) w.

(** [Array.prototype.sort(comparefn)].  ECMAScript requires the sort to be
    stable when [comparefn] is a consistent comparison and leaves the
    order to the engine when it is not.  The model is the algorithm of V8,
    the engine of Node.js, for an array of fewer than 64 elements: the
    longest run at the start of the array is found, and reversed when it
    is strictly descending; the elements after it are then inserted one by
    one, each at the place a binary search finds.  (V8 cuts a longer array
    into pieces sorted in this way and merges them.)  The array is split
    here into the part already in order and the elements still to be
    inserted.  The elements are sorted aside and written back to the array
    at the end, so a comparator that throws leaves the array as it was;
    the result of [sort] is the array itself. *)
Section Sort.
Context {A : Type} (comparefn : A → A → outcome number).

(** The comparator as the sort calls it: a [NaN] result counts as [+0]. *)
Definition Compare (x y : A) : outcome Z :=
  v ← comparefn x y;
  Return (match v with
          | NaN => 0
          | Num z => z
          end).

(** The loop of [CountAndMakeRun]: how many of the next elements extend
    the run that ends in [previousElement]. *)
Fixpoint countRun (isDescending : bool) (previousElement : A) (rest : list A)
  : outcome nat :=
  match rest with
  | [] => Return 0%nat
  | currentElement :: rest' =>
      order ← Compare currentElement previousElement;
      if (if isDescending then 0 <=? order else order <? 0) then Return 0%nat
      else n ← countRun isDescending currentElement rest'; Return (S n)
  end.

(** [CountAndMakeRun]: the run at the start of the array, made ascending
    in the order of the comparator, and the elements after it. *)
Definition CountAndMakeRun (workArray : list A) : outcome (list A * list A) :=
  match workArray with
  | elementHigh :: elementLow :: rest =>
      order ← Compare elementLow elementHigh;
      let isDescending := order <? 0 in
      n ← countRun isDescending elementLow rest;
      let runLength := (2 + n)%nat in
      let run := take runLength workArray in
      Return (if isDescending then reverse run else run, drop runLength workArray)
  | _ => Return (workArray, [])
  end.

(** The binary search of [BinaryInsertionSort] for the place of [pivot]
    between [left] and [right]; the loop ends within [right - left]
    rounds. *)
Fixpoint search (fuel : nat) (pivot : A) (sorted : list A) (left right : nat)
  : outcome nat :=
  match fuel with
  | O => Return left
  | S fuel' =>
      if (left <? right)%nat then
        let mid := (left + (right - left) / 2)%nat in
        match sorted !! mid with
        | Some y =>
            order ← Compare pivot y;
            if order <? 0 then search fuel' pivot sorted left mid
            else search fuel' pivot sorted (S mid) right
        | None => Return left
        end
      else Return left
  end.

(** [BinaryInsertionSort]: each element of [rest] in turn is the pivot,
    put into [sorted] at the place found. *)
Fixpoint BinaryInsertionSort (sorted rest : list A) : outcome (list A) :=
  match rest with
  | [] => Return sorted
  | pivot :: rest' =>
      left ← search (length sorted) pivot sorted 0 (length sorted);
      BinaryInsertionSort (take left sorted ++ pivot :: drop left sorted) rest'
  end.

Definition sort (l : list A) : outcome (list A) :=
  made ← CountAndMakeRun l;
  BinaryInsertionSort made.1 made.2.
End Sort.

Definition Array_sort (l : loc) (comparefn : CollectionEntry → CollectionEntry → outcome number)
  : M loc :=
  arr ← read l;
  sorted ← lift (sort comparefn arr);
  _ ← write l sorted;
  mret l.

(** [Array.prototype.map(callback)] for a callback that does not throw. *)
Definition Array_map {B : Type} (l : loc) (callback : CollectionEntry → B) : M (list B) :=
  arr ← read l;
  mret (List.map callback arr).

(** [pubDate.valueOf()]: the time value of the date, and a [TypeError]
    when [pubDate] is [undefined]. *)
Definition valueOf (d : option Date) : outcome number :=
  match d with
  | Some t => Return (timeValue t)
  | None => Throw TypeError
  end.

(** [a || b] on a string that may be [undefined]: the empty string and
    [undefined] are falsy. *)
Definition or_else (a : option string) (b : string) : string :=
  match a with
  | Some s => if String.eqb s "" then b else s
  | None => b
  end.

(** ** The handler *)

(** [({ data }) => data.draft !== true] *)
Definition notDraft (entry : CollectionEntry) : bool :=
  match BlogData.draft (data entry) with
  | Some true => false
  | _ => true
  end.

(** [(a, b) => b.data.pubDate.valueOf() - a.data.pubDate.valueOf()] *)
Definition byPubDate (a b : CollectionEntry) : outcome number :=
  vb ← valueOf (BlogData.pubDate (data b));
  va ← valueOf (BlogData.pubDate (data a));
  Return (number_sub vb va).

(** The callback of [sortedPosts.map]. *)
Definition toItem (post : CollectionEntry) : RSSFeedItem.t :=
  {| RSSFeedItem.title := BlogData.title (data post);
     RSSFeedItem.description := BlogData.description (data post);
     RSSFeedItem.pubDate := BlogData.pubDate (data post);
     RSSFeedItem.link := "/blog/" +:+ slug post +:+ "/";
     RSSFeedItem.categories := BlogData.tags (data post) |}.

(** [GET(context)], up to the call of [rss]: the result is the options
    object that the handler passes to the serializer. *)
Definition GET (context : APIContext.t) : M RSSOptions.t :=
  blog ← getCollection "blog" notDraft;
  sortedPosts ← Array_sort blog byPubDate;
  feedItems ← Array_map sortedPosts toItem;
  mret {| RSSOptions.title := "Lucas William Bateson - Blog";
          RSSOptions.description :=
            "Personal blog and project log - thoughts on development, technology, and building things.";
          RSSOptions.site := or_else (APIContext.site context) "https://blog.l3s.me";
          RSSOptions.items := feedItems;
          RSSOptions.customData := "<language>en-us</language>" |}.

(** ** Vocabulary of the statements *)

(** A post has a publication date. *)
Definition dated (p : CollectionEntry) : Prop :=
  is_Some (BlogData.pubDate (data p)).

#[global] Instance dated_dec (p : CollectionEntry) : Decision (dated p).
Proof. unfold dated. apply _. Defined.

(** The time of publication of a post, when its [pubDate] is there and is
    a valid date. *)
Definition timeOfDate (d : option Date) : option Z :=
  match d with
  | Some t =>
      match timeValue t with
      | Num z => Some z
      | NaN => None
      end
  | None => None
  end.

Definition timeOf (p : CollectionEntry) : option Z :=
  timeOfDate (BlogData.pubDate (data p)).

(** A post has a valid publication date. *)
Definition valid (p : CollectionEntry) : Prop := is_Some (timeOf p).

(** [a] was published at the time of [b] or later; both have a valid
    date. *)
Definition notOlder (a b : CollectionEntry) : Prop :=
  ∃ x y, timeOf a = Some x ∧ timeOf b = Some y ∧ y ≤ x.

(** [a] was published strictly before [b]; both have a valid date. *)
Definition older (a b : CollectionEntry) : Prop :=
  ∃ x y, timeOf a = Some x ∧ timeOf b = Some y ∧ x < y.

(** The post was published at time [d]. *)
Definition publishedAt (d : Z) (p : CollectionEntry) : bool :=
  match timeOf p with
  | Some t => t =? d
  | None => false
  end.

(** The entry carries the time of publication [d]. *)
Definition itemAt (d : Z) (e : RSSFeedItem.t) : bool :=
  match timeOfDate (RSSFeedItem.pubDate e) with
  | Some t => t =? d
  | None => false
  end.

(** The array of the non-draft posts that [getCollection] returns. *)
Definition blogOf (w : World) : list CollectionEntry :=
  List.filter notDraft (collections w "blog").

(** The world after a run: the store as it was, and one more array. *)
Definition after (w : World) (arr : list CollectionEntry) : World :=
  {| collections := collections w; heap := heap w ++ [arr] |}.

(** Two entries that agree on everything the handler reads: the slug and,
    in the data, the title, the description, the publication date, the
    tags and the draft flag.  The body and [updatedDate] are free. *)
Definition sameFeedFields (p q : CollectionEntry) : Prop :=
  slug p = slug q ∧
  BlogData.title (data p) = BlogData.title (data q) ∧
  BlogData.description (data p) = BlogData.description (data q) ∧
  BlogData.pubDate (data p) = BlogData.pubDate (data q) ∧
  BlogData.tags (data p) = BlogData.tags (data q) ∧
  BlogData.draft (data p) = BlogData.draft (data q).

(** ** Sample stores *)

Definition mkPost (s t : string) (d : option Date) (dr : option bool) : CollectionEntry :=
  {| slug := s; body := "";
     data := {| BlogData.title := t; BlogData.description := "";
                BlogData.pubDate := d; BlogData.updatedDate := None;
                BlogData.tags := [s]; BlogData.draft := dr |} |}.

Definition storeOf (posts : list CollectionEntry) : World :=
  {| collections := fun name => if String.eqb name "blog" then posts else [];
     heap := [] |}.

(** Midnight UTC of 2025-01-01, 2025-02-01 and 2025-03-01. *)
Definition jan1 : Z := 1735689600000.
Definition feb1 : Z := 1738368000000.
Definition mar1 : Z := 1740787200000.

Definition postA : CollectionEntry := mkPost "a" "A" (Some (Time jan1)) (Some false).
Definition postB : CollectionEntry := mkPost "b" "B" (Some (Time mar1)) (Some false).
Definition postC : CollectionEntry := mkPost "c" "C" (Some (Time feb1)) (Some true).
Definition postX : CollectionEntry := mkPost "x" "X" (Some (Time jan1)) None.
Definition postY : CollectionEntry := mkPost "y" "Y" (Some (Time jan1)) (Some false).
Definition postU : CollectionEntry := mkPost "u" "U" None (Some false).

(** Posts with an Invalid Date, and posts of 2025-02-01 and of midnight
    UTC of 2024-12-01. *)
Definition dec1 : Z := 1733011200000.
Definition postN : CollectionEntry := mkPost "n" "N" (Some InvalidDate) (Some false).
Definition postN' : CollectionEntry := mkPost "n2" "N2" (Some InvalidDate) (Some false).
Definition postZ : CollectionEntry := mkPost "z" "Z" (Some (Time feb1)) (Some false).
Definition postO : CollectionEntry := mkPost "o" "O" (Some (Time dec1)) (Some false).

(** The two ends of the range of time values. *)
Definition postLo : CollectionEntry :=
  mkPost "lo" "Lo" (Some (Time (-8639999999999999))) (Some false).
Definition postHi : CollectionEntry :=
  mkPost "hi" "Hi" (Some (Time 8640000000000000)) (Some false).
Definition postMid : CollectionEntry := mkPost "mid" "Mid" (Some (Time 0)) (Some false).

(** A draft without a date, and [postA] edited: a new body and an
    [updatedDate]. *)
Definition postD : CollectionEntry := mkPost "d" "D" None (Some true).
Definition postA' : CollectionEntry :=
  {| slug := "a"; body := "edited";
     data := {| BlogData.title := "A"; BlogData.description := "";
                BlogData.pubDate := Some (Time jan1);
                BlogData.updatedDate := Some (Time feb1);
                BlogData.tags := ["a"]; BlogData.draft := Some false |} |}.

Definition noSite : APIContext.t := {| APIContext.site := None |}.
Definition emptySite : APIContext.t := {| APIContext.site := Some "" |}.
Definition someSite : APIContext.t := {| APIContext.site := Some "https://example.org" |}.

(** ** The sort *)

Section SortFacts.
Context {A : Type} (comparefn : A → A → outcome number).

Lemma countRun_le isDescending previousElement rest n :
  countRun comparefn isDescending previousElement rest = Return n →
  (n ≤ length rest)%nat.
Proof.
  revert previousElement n. induction rest as [|x rest IH]; intros prev n; simpl.
  - intros [= <-]. lia.
  - destruct (Compare comparefn x prev) as [order|e]; simpl; [|done].
    destruct (if isDescending then 0 <=? order else order <? 0).
    + intros [= <-]. lia.
    + destruct (countRun comparefn isDescending x rest) as [m|e] eqn:E; simpl; [|done].
      intros [= <-]. apply IH in E. lia.
Qed.

Lemma CountAndMakeRun_Permutation l run rest :
  CountAndMakeRun comparefn l = Return (run, rest) → (run ++ rest)%list ≡ₚ l.
Proof.
  unfold CountAndMakeRun. destruct l as [|x [|y l]].
  - by intros [= <- <-].
  - by intros [= <- <-].
  - destruct (Compare comparefn y x) as [order|e]; simpl; [|done].
    destruct (countRun comparefn (order <? 0) y l) as [n|e]; simpl; [|done].
    intros [= <- <-].
    destruct (order <? 0); [rewrite reverse_Permutation|]; simpl;
      by rewrite take_drop.
Qed.

Lemma BinaryInsertionSort_Permutation sorted rest s :
  BinaryInsertionSort comparefn sorted rest = Return s →
  s ≡ₚ (sorted ++ rest)%list.
Proof.
  revert sorted s. induction rest as [|pivot rest IH]; intros sorted s; simpl.
  - intros [= <-]. by rewrite app_nil_r.
  - destruct (search comparefn (length sorted) pivot sorted 0 (length sorted))
      as [left|e]; simpl; [|done].
    intros H. rewrite (IH _ _ H).
    rewrite <- app_assoc. simpl. rewrite <- !Permutation_middle.
    by rewrite app_assoc, take_drop.
Qed.

Lemma sort_Permutation l s :
  sort comparefn l = Return s → s ≡ₚ l.
Proof.
  unfold sort. destruct (CountAndMakeRun comparefn l) as [[run rest]|e] eqn:E;
    simpl; [|done].
  intros H. rewrite (BinaryInsertionSort_Permutation _ _ _ H).
  by eapply CountAndMakeRun_Permutation.
Qed.

Lemma sort_length l s :
  sort comparefn l = Return s → length s = length l.
Proof. intros H. by rewrite (sort_Permutation _ _ H). Qed.

(** The search ends before its fuel does: any two amounts of fuel that
    cover the interval give the same place. *)
Lemma search_fuel fuel fuel' pivot sorted left right :
  (right - left ≤ fuel)%nat → (right - left ≤ fuel')%nat →
  search comparefn fuel pivot sorted left right
  = search comparefn fuel' pivot sorted left right.
Proof.
  revert fuel' left right. induction fuel as [|fuel IH];
    intros [|fuel'] left right Hf Hf'; simpl; try done.
  - destruct (left <? right)%nat eqn:E; [|done]. apply Nat.ltb_lt in E. lia.
  - destruct (left <? right)%nat eqn:E; [|done]. apply Nat.ltb_lt in E. lia.
  - destruct (left <? right)%nat eqn:E; [|done]. apply Nat.ltb_lt in E.
    destruct (sorted !! (left + (right - left) / 2)%nat) as [y|]; [|done].
    destruct (Compare comparefn pivot y) as [order|e]; simpl; [|done].
    assert ((right - left) / 2 < right - left)%nat
      by (apply Nat.div_lt; lia).
    destruct (order <? 0); apply IH; lia.
Qed.
End SortFacts.

(** ** Rounding *)

Lemma roundAbs_pos a : 0 < a → 0 < roundAbs a.
Proof.
  intros Ha. unfold roundAbs. destruct (Z.log2 a <? 53) eqn:E; [done|].
  apply Z.ltb_ge in E.
  assert (0 < 2 ^ (Z.log2 a - 52)) as Hq by (apply Z.pow_pos_nonneg; lia).
  assert (2 ^ (Z.log2 a - 52) ≤ a) as Hqa.
  { etrans; [|apply Z.log2_spec; done]. apply Z.pow_le_mono_r; lia. }
  assert (0 < a / 2 ^ (Z.log2 a - 52)) as Hk by (apply Z.div_str_pos; lia).
  repeat case_match; nia.
Qed.

Lemma roundDouble_sgn z : Z.sgn (roundDouble z) = Z.sgn z.
Proof.
  unfold roundDouble. destruct (Z.lt_trichotomy z 0) as [H|[->|H]]; [|done|].
  - pose proof (roundAbs_pos (Z.abs z)). rewrite (Z.sgn_neg z) by done.
    apply Z.sgn_neg. lia.
  - pose proof (roundAbs_pos (Z.abs z)). rewrite (Z.sgn_pos z) by done.
    apply Z.sgn_pos. lia.
Qed.

Lemma roundDouble_opp z : roundDouble (- z) = - roundDouble z.
Proof. unfold roundDouble. rewrite Z.sgn_opp, Z.abs_opp. lia. Qed.

Lemma roundDouble_neg z : roundDouble z < 0 ↔ z < 0.
Proof. pose proof (roundDouble_sgn z). lia. Qed.

Lemma roundDouble_zero z : roundDouble z = 0 ↔ z = 0.
Proof. pose proof (roundDouble_sgn z). lia. Qed.

(** ** The comparator of the handler *)

Lemma timeOf_Some p t :
  timeOf p = Some t ↔
  ∃ d, BlogData.pubDate (data p) = Some d ∧ timeValue d = Num t.
Proof.
  unfold timeOf, timeOfDate. destruct (BlogData.pubDate (data p)) as [d|].
  - destruct (timeValue d) as [|z] eqn:E; split.
    + done.
    + intros (d' & [= <-] & H). congruence.
    + intros [= <-]. eauto.
    + intros (d' & [= <-] & H). congruence.
  - split; [done|]. by intros (d & H & _).
Qed.

Lemma valid_dated p : valid p → dated p.
Proof. intros [t (d & Hd & _)%timeOf_Some]. unfold dated. rewrite Hd. eauto. Qed.

Lemma byPubDate_Return a b v :
  byPubDate a b = Return v ↔
  ∃ da db, BlogData.pubDate (data a) = Some da ∧
           BlogData.pubDate (data b) = Some db ∧
           v = number_sub (timeValue db) (timeValue da).
Proof.
  unfold byPubDate.
  destruct (BlogData.pubDate (data a)) as [x|], (BlogData.pubDate (data b)) as [y|];
    simpl; split; try (intros [= <-]; eauto); try done;
    try (intros (x' & y' & Hx & Hy & ->); congruence).
Qed.

Lemma Compare_Return_dated a b v :
  Compare byPubDate a b = Return v → dated a ∧ dated b.
Proof.
  unfold Compare. destruct (byPubDate a b) as [n|e] eqn:E; simpl; [|done].
  apply byPubDate_Return in E as (da & db & Ha & Hb & _).
  intros _. unfold dated. rewrite Ha, Hb. eauto.
Qed.

Lemma Compare_dated a b :
  dated a → dated b → ∃ v, Compare byPubDate a b = Return v.
Proof.
  intros [da Ha] [db Hb]. unfold Compare.
  rewrite (proj2 (byPubDate_Return a b _)) by eauto. simpl. eauto.
Qed.

Lemma Compare_valid a b ta tb :
  timeOf a = Some ta → timeOf b = Some tb →
  Compare byPubDate a b = Return (roundDouble (tb - ta)).
Proof.
  intros (da & Ha & Hta)%timeOf_Some (db & Hb & Htb)%timeOf_Some. unfold Compare.
  rewrite (proj2 (byPubDate_Return a b _)) by eauto. simpl.
  by rewrite Hta, Htb.
Qed.

Lemma notOlder_trans a b c : notOlder a b → notOlder b c → notOlder a c.
Proof.
  intros (x & y & Hx & Hy & Hxy) (y' & z & Hy' & Hz & Hyz).
  exists x, z. repeat split; [done..|]. simplify_eq. lia.
Qed.

Lemma older_trans a b c : older a b → older b c → older a c.
Proof.
  intros (x & y & Hx & Hy & Hxy) (y' & z & Hy' & Hz & Hyz).
  exists x, z. repeat split; [done..|]. simplify_eq. lia.
Qed.

Lemma publishedAt_true d p :
  publishedAt d p = true ↔ timeOf p = Some d.
Proof.
  unfold publishedAt. destruct (timeOf p) as [t|]; [|done].
  rewrite Z.eqb_eq. split; congruence.
Qed.

Lemma filter_none {A : Type} (f : A → bool) (l : list A) :
  (∀ x, x ∈ l → f x = false) → List.filter f l = [].
Proof.
  induction l as [|x l IH]; intros H; [done|]. simpl.
  rewrite (H x) by apply list_elem_of_here. apply IH.
  intros y Hy. apply H. by apply list_elem_of_further.
Qed.

(** No post of a list of strictly older, or strictly newer, posts was
    published at the time of the post they are compared with. *)
Lemma filter_publishedAt_other d l :
  Forall (λ q, ∃ tq, timeOf q = Some tq ∧ tq ≠ d) l →
  List.filter (publishedAt d) l = [].
Proof.
  intros H. apply filter_none. intros q Hq. rewrite Forall_forall in H.
  destruct (H q Hq) as (tq & Htq & Hne). unfold publishedAt. rewrite Htq.
  by apply Z.eqb_neq.
Qed.

(** *** Runs *)

Lemma countRun_ascending prev rest :
  Forall valid (prev :: rest) →
  ∃ n, countRun byPubDate false prev rest = Return n ∧
       Sorted notOlder (prev :: take n rest).
Proof.
  revert prev. induction rest as [|x rest IH]; intros prev Hv; simpl.
  - exists 0%nat. split; [done|]. repeat constructor.
  - apply Forall_cons in Hv as [[tp Hp] Hv].
    pose proof Hv as [[tx Hx] _]%Forall_cons.
    rewrite (Compare_valid x prev tx tp Hx Hp). simpl.
    destruct (roundDouble (tp - tx) <? 0) eqn:E.
    + exists 0%nat. split; [done|]. repeat constructor.
    + apply Z.ltb_ge in E. destruct (IH x Hv) as (n & -> & Hs). simpl.
      exists (S n). split; [done|]. simpl. constructor; [done|].
      constructor. exists tp, tx. repeat split; [done..|].
      pose proof (roundDouble_neg (tp - tx)). lia.
Qed.

Lemma countRun_descending prev rest :
  Forall valid (prev :: rest) →
  ∃ n, countRun byPubDate true prev rest = Return n ∧
       Sorted older (prev :: take n rest).
Proof.
  revert prev. induction rest as [|x rest IH]; intros prev Hv; simpl.
  - exists 0%nat. split; [done|]. repeat constructor.
  - apply Forall_cons in Hv as [[tp Hp] Hv].
    pose proof Hv as [[tx Hx] _]%Forall_cons.
    rewrite (Compare_valid x prev tx tp Hx Hp). simpl.
    destruct (0 <=? roundDouble (tp - tx)) eqn:E.
    + exists 0%nat. split; [done|]. repeat constructor.
    + apply Z.leb_gt in E. destruct (IH x Hv) as (n & -> & Hs). simpl.
      exists (S n). split; [done|]. simpl. constructor; [done|].
      constructor. exists tp, tx. repeat split; [done..|].
      pose proof (roundDouble_neg (tp - tx)). lia.
Qed.

Lemma reverse_older_sorted l :
  StronglySorted older l → StronglySorted notOlder (reverse l).
Proof.
  induction 1 as [|x l Hl IH Hx]; [constructor|].
  rewrite reverse_cons. apply StronglySorted_app. split; [|split].
  - intros x1 x2 Hx1 ->%list_elem_of_singleton.
    rewrite elem_of_reverse in Hx1. rewrite Forall_forall in Hx.
    destruct (Hx x1 Hx1) as (a & b & Ha & Hb & Hab).
    exists b, a. repeat split; [done..|lia].
  - done.
  - repeat constructor.
Qed.

Lemma reverse_older_filter d l :
  StronglySorted older l →
  List.filter (publishedAt d) (reverse l) = List.filter (publishedAt d) l.
Proof.
  induction 1 as [|x l Hl IH Hx]; [done|].
  rewrite reverse_cons, List.filter_app, IH. simpl.
  destruct (publishedAt d x) eqn:E; [|by rewrite app_nil_r].
  apply publishedAt_true in E. rewrite filter_publishedAt_other; [done|].
  eapply Forall_impl; [exact Hx|]. intros q (a & b & Ha & Hb & Hab).
  exists b. split; [done|]. simplify_eq. lia.
Qed.

Lemma CountAndMakeRun_valid l :
  Forall valid l →
  ∃ run rest, CountAndMakeRun byPubDate l = Return (run, rest) ∧
              StronglySorted notOlder run ∧
              ∀ d, List.filter (publishedAt d) (run ++ rest)
                   = List.filter (publishedAt d) l.
Proof.
  intros Hv. unfold CountAndMakeRun. destruct l as [|x [|y l]].
  - exists [], []. split; [done|]. split; [constructor|done].
  - exists [x], []. split; [done|]. split; [repeat constructor|done].
  - pose proof Hv as [[tx Hx] [[ty Hy] _]%Forall_cons]%Forall_cons.
    apply Forall_cons in Hv as [_ Hv].
    rewrite (Compare_valid y x ty tx Hy Hx). simpl.
    destruct (roundDouble (tx - ty) <? 0) eqn:E.
    + apply Z.ltb_lt in E. apply (proj1 (roundDouble_neg _)) in E.
      destruct (countRun_descending y l Hv) as (n & -> & Hs). simpl.
      eexists _, _. split; [done|].
      assert (StronglySorted older (x :: y :: take n l)) as Hss.
      { apply Sorted.Sorted_StronglySorted; [exact older_trans|].
        constructor; [done|].
        constructor. exists tx, ty. repeat split; [done..|lia]. }
      split; [by apply reverse_older_sorted|].
      intros d. rewrite List.filter_app, reverse_older_filter by done.
      rewrite <- List.filter_app. simpl. by rewrite take_drop.
    + apply Z.ltb_ge in E. pose proof (roundDouble_neg (tx - ty)).
      destruct (countRun_ascending y l Hv) as (n & -> & Hs). simpl.
      eexists _, _. split; [done|]. split.
      * apply Sorted.Sorted_StronglySorted; [exact notOlder_trans|].
        constructor; [done|].
        constructor. exists tx, ty. repeat split; [done..|lia].
      * intros d. simpl. by rewrite take_drop.
Qed.

(** *** Binary insertion *)

Lemma StronglySorted_lookup {A : Type} (R : A → A → Prop) (l : list A) i j a b :
  StronglySorted R l → (i < j)%nat → l !! i = Some a → l !! j = Some b → R a b.
Proof.
  intros Hl. revert i j. induction Hl as [|x l Hl IH Hx]; intros i j Hij Hi Hj.
  - done.
  - destruct j as [|j]; [lia|]. destruct i as [|i]; simpl in *.
    + injection Hi as <-. rewrite Forall_forall in Hx. apply Hx.
      by eapply list_elem_of_lookup_2.
    + apply (IH i j); [lia|done..].
Qed.

(** On posts in descending order of date the search finds the place
    after the posts that are not older than the pivot and before the
    older ones. *)
Lemma search_valid pivot tp sorted fuel left right :
  StronglySorted notOlder sorted → Forall valid sorted →
  timeOf pivot = Some tp →
  (right - left ≤ fuel)%nat → (left ≤ right)%nat → (right ≤ length sorted)%nat →
  (∀ i e te, (i < left)%nat → sorted !! i = Some e → timeOf e = Some te → tp ≤ te) →
  (∀ i e te, (right ≤ i)%nat → sorted !! i = Some e → timeOf e = Some te → te < tp) →
  ∃ pos, search byPubDate fuel pivot sorted left right = Return pos ∧
         (∀ i e te, (i < pos)%nat → sorted !! i = Some e → timeOf e = Some te → tp ≤ te) ∧
         (∀ i e te, (pos ≤ i)%nat → sorted !! i = Some e → timeOf e = Some te → te < tp).
Proof.
  intros Hs Hv Hp. revert left right.
  induction fuel as [|fuel IH]; intros left right Hf Hlr Hr Hlo Hhi; simpl.
  - exists left. split; [done|]. split; [done|].
    intros i e te Hi. apply Hhi. lia.
  - destruct (left <? right)%nat eqn:E.
    + apply Nat.ltb_lt in E.
      assert ((right - left) / 2 < right - left)%nat by (apply Nat.div_lt; lia).
      set (mid := (left + (right - left) / 2)%nat) in *.
      assert (mid < length sorted)%nat as Hmid by (unfold mid; lia).
      destruct (lookup_lt_is_Some_2 sorted mid Hmid) as [y Hy]. rewrite Hy.
      rewrite Forall_forall in Hv.
      destruct (Hv y (list_elem_of_lookup_2 _ _ _ Hy)) as [ty Hty].
      rewrite (Compare_valid pivot y tp ty Hp Hty). simpl.
      pose proof (roundDouble_neg (ty - tp)) as Hneg.
      destruct (roundDouble (ty - tp) <? 0) eqn:Eo.
      * apply Z.ltb_lt in Eo. apply IH; [unfold mid; lia..|done|].
        intros i e te Hi He Hte.
        destruct (decide (i = mid)) as [->|Hne]; [simplify_eq; lia|].
        destruct (StronglySorted_lookup notOlder sorted mid i y e Hs)
          as (a & b & Ha & Hb & Hab); [lia|done..|]. simplify_eq. lia.
      * apply Z.ltb_ge in Eo. apply IH; [unfold mid; lia..| |done].
        intros i e te Hi He Hte.
        destruct (decide (i = mid)) as [->|Hne]; [simplify_eq; lia|].
        destruct (StronglySorted_lookup notOlder sorted i mid e y Hs)
          as (a & b & Ha & Hb & Hab); [lia|done..|]. simplify_eq. lia.
    + apply Nat.ltb_ge in E. exists left. split; [done|]. split; [done|].
      intros i e te Hi. apply Hhi. lia.
Qed.

Lemma insert_valid pivot tp sorted :
  StronglySorted notOlder sorted → Forall valid sorted →
  timeOf pivot = Some tp →
  ∃ pos, search byPubDate (length sorted) pivot sorted 0 (length sorted) = Return pos ∧
         StronglySorted notOlder (take pos sorted ++ pivot :: drop pos sorted) ∧
         ∀ d, List.filter (publishedAt d) (take pos sorted ++ pivot :: drop pos sorted)
              = List.filter (publishedAt d) (sorted ++ [pivot]).
Proof.
  intros Hs Hv Hp.
  destruct (search_valid pivot tp sorted (length sorted) 0 (length sorted))
    as (pos & Hpos & Hlo & Hhi); [done..|lia|lia|lia| | |].
  { intros i e te Hi. lia. }
  { intros i e te Hi He. apply lookup_lt_Some in He. lia. }
  exists pos. split; [done|].
  assert (Forall (λ e, ∃ te, timeOf e = Some te ∧ tp ≤ te) (take pos sorted)) as Htake.
  { apply Forall_lookup. intros i e He.
    apply lookup_take_Some in He as [He Hi].
    rewrite Forall_forall in Hv.
    destruct (Hv e (list_elem_of_lookup_2 _ _ _ He)) as [te Hte]. eauto. }
  assert (Forall (λ e, ∃ te, timeOf e = Some te ∧ te < tp) (drop pos sorted)) as Hdrop.
  { apply Forall_lookup. intros i e He. rewrite lookup_drop in He.
    rewrite Forall_forall in Hv.
    destruct (Hv e (list_elem_of_lookup_2 _ _ _ He)) as [te Hte].
    exists te. split; [done|]. eapply Hhi; [|done..]. lia. }
  rewrite <- (take_drop pos sorted) in Hs.
  apply StronglySorted_app in Hs as (Hcross & Hs1 & Hs2). split.
  - apply StronglySorted_app. split; [|split; [done|]].
    + intros x1 x2 Hx1 [->|Hx2]%elem_of_cons; [|by apply Hcross].
      rewrite Forall_forall in Htake. destruct (Htake x1 Hx1) as (t1 & Ht1 & Hle).
      by exists t1, tp.
    + constructor; [done|]. eapply Forall_impl; [exact Hdrop|].
      intros e (te & Hte & Hlt). exists tp, te. repeat split; [done..|lia].
  - intros d. rewrite <- (take_drop pos sorted) at 3.
    rewrite !List.filter_app. simpl. rewrite <- app_assoc. f_equal.
    destruct (publishedAt d pivot) eqn:E; [|by rewrite app_nil_r].
    apply publishedAt_true in E. rewrite filter_publishedAt_other; [done|].
    eapply Forall_impl; [exact Hdrop|]. intros e (te & Hte & Hlt).
    exists te. split; [done|]. simplify_eq. lia.
Qed.

Lemma BinaryInsertionSort_valid sorted rest :
  StronglySorted notOlder sorted → Forall valid sorted → Forall valid rest →
  ∃ s, BinaryInsertionSort byPubDate sorted rest = Return s ∧
       StronglySorted notOlder s ∧
       ∀ d, List.filter (publishedAt d) s
            = List.filter (publishedAt d) (sorted ++ rest).
Proof.
  intros Hs Hv Hr. revert sorted Hs Hv.
  induction Hr as [|pivot rest [tp Hp] Hr IH]; intros sorted Hs Hv; simpl.
  - exists sorted. split; [done|]. split; [done|]. intros d. by rewrite app_nil_r.
  - destruct (insert_valid pivot tp sorted Hs Hv Hp) as (pos & -> & Hs' & Hf). simpl.
    destruct (IH (take pos sorted ++ pivot :: drop pos sorted)%list)
      as (s & -> & Hss & Hfs).
    + done.
    + apply Forall_app. split; [by apply Forall_take|].
      constructor; [by exists tp|by apply Forall_drop].
    + exists s. split; [done|]. split; [done|]. intros d.
      rewrite Hfs, List.filter_app, Hf, <- List.filter_app.
      by rewrite <- app_assoc.
Qed.

(** On posts with valid dates the sort returns them in descending order
    of date, the posts of any one date in their order before. *)
Lemma sort_byPubDate_valid l :
  Forall valid l →
  ∃ s, sort byPubDate l = Return s ∧
       StronglySorted notOlder s ∧
       ∀ d, List.filter (publishedAt d) s = List.filter (publishedAt d) l.
Proof.
  intros Hv. unfold sort.
  destruct (CountAndMakeRun_valid l Hv) as (run & rest & Hrun & Hs & Hf).
  rewrite Hrun. simpl.
  pose proof (CountAndMakeRun_Permutation _ _ _ _ Hrun) as Hperm.
  rewrite <- Hperm in Hv. apply Forall_app in Hv as [Hv1 Hv2].
  destruct (BinaryInsertionSort_valid run rest Hs Hv1 Hv2) as (s & -> & Hss & Hfs).
  exists s. split; [done|]. split; [done|]. intros d. by rewrite Hfs, Hf.
Qed.

Lemma sort_byPubDate_sorted l s :
  Forall valid l → sort byPubDate l = Return s → StronglySorted notOlder s.
Proof.
  intros Hv Hs. destruct (sort_byPubDate_valid l Hv) as (s' & Hs' & Hss & _).
  congruence.
Qed.

Lemma sort_byPubDate_stable d l s :
  Forall valid l → sort byPubDate l = Return s →
  List.filter (publishedAt d) s = List.filter (publishedAt d) l.
Proof.
  intros Hv Hs. destruct (sort_byPubDate_valid l Hv) as (s' & Hs' & _ & Hf).
  assert (s' = s) as -> by congruence. apply Hf.
Qed.

(** *** When the sort returns *)

Lemma countRun_dated isDescending prev rest :
  Forall dated (prev :: rest) →
  ∃ n, countRun byPubDate isDescending prev rest = Return n.
Proof.
  revert prev. induction rest as [|x rest IH]; intros prev Hd; simpl; [eauto|].
  apply Forall_cons in Hd as [Hp Hd]. pose proof Hd as [Hx _]%Forall_cons.
  destruct (Compare_dated x prev Hx Hp) as [order ->]. simpl.
  destruct (if isDescending then 0 <=? order else order <? 0); [eauto|].
  destruct (IH x Hd) as [n ->]. simpl. eauto.
Qed.

Lemma search_dated fuel pivot sorted left right :
  dated pivot → Forall dated sorted →
  ∃ pos, search byPubDate fuel pivot sorted left right = Return pos.
Proof.
  intros Hp Hd. revert left right.
  induction fuel as [|fuel IH]; intros left right; simpl; [eauto|].
  destruct (left <? right)%nat; [|eauto].
  destruct (sorted !! (left + (right - left) / 2)%nat) as [y|] eqn:Hy; [|eauto].
  rewrite Forall_forall in Hd.
  destruct (Compare_dated pivot y Hp (Hd y (list_elem_of_lookup_2 _ _ _ Hy)))
    as [order ->]. simpl.
  destruct (order <? 0); apply IH.
Qed.

Lemma BinaryInsertionSort_dated sorted rest :
  Forall dated sorted → Forall dated rest →
  ∃ s, BinaryInsertionSort byPubDate sorted rest = Return s.
Proof.
  intros Hs Hr. revert sorted Hs.
  induction Hr as [|pivot rest Hp Hr IH]; intros sorted Hs; simpl; [eauto|].
  destruct (search_dated (length sorted) pivot sorted 0 (length sorted) Hp Hs)
    as [pos ->]. simpl.
  apply IH. apply Forall_app. split; [by apply Forall_take|].
  constructor; [done|by apply Forall_drop].
Qed.

(** The sort returns when every post has a [pubDate], valid or not. *)
Lemma sort_byPubDate_Return l :
  Forall dated l → ∃ s, sort byPubDate l = Return s.
Proof.
  intros Hd. unfold sort.
  assert (∃ made, CountAndMakeRun byPubDate l = Return made) as [[run rest] Hm].
  { unfold CountAndMakeRun. destruct l as [|x [|y l]]; [eauto..|].
    pose proof Hd as [Hx [Hy _]%Forall_cons]%Forall_cons.
    apply Forall_cons in Hd as [_ Hd].
    destruct (Compare_dated y x Hy Hx) as [order ->]. simpl.
    destruct (countRun_dated (order <? 0) y l Hd) as [n ->]. simpl. eauto. }
  rewrite Hm. simpl.
  rewrite <- (CountAndMakeRun_Permutation _ _ _ _ Hm) in Hd.
  apply Forall_app in Hd as [Hd1 Hd2]. by apply BinaryInsertionSort_dated.
Qed.

(** With two posts or more, every post is compared with another one: the
    sort returns only if every post has a [pubDate]. *)
Lemma countRun_Return_dated isDescending prev rest n :
  countRun byPubDate isDescending prev rest = Return n →
  Forall dated (take n rest).
Proof.
  revert prev n. induction rest as [|x rest IH]; intros prev n; simpl.
  - intros _. by rewrite take_nil.
  - destruct (Compare byPubDate x prev) as [order|e] eqn:Hc; simpl; [|done].
    apply Compare_Return_dated in Hc as [Hx _].
    destruct (if isDescending then 0 <=? order else order <? 0).
    + intros [= <-]. constructor.
    + destruct (countRun byPubDate isDescending x rest) as [m|e] eqn:E; simpl; [|done].
      intros [= <-]. simpl. constructor; [done|]. by eapply IH.
Qed.

Lemma search_Return_dated pivot sorted pos :
  sorted ≠ [] →
  search byPubDate (length sorted) pivot sorted 0 (length sorted) = Return pos →
  dated pivot.
Proof.
  intros Hne. destruct sorted as [|x sorted]; [done|].
  cbn [length search]. change (0 <? S (length sorted))%nat with true. cbv iota.
  assert ((S (length sorted) - 0) / 2 < S (length sorted))%nat as Hmid
    by (apply Nat.Div0.div_lt_upper_bound; lia).
  destruct (lookup_lt_is_Some_2 (x :: sorted) _ Hmid) as [y Hy].
  change (0 + ?n)%nat with n. rewrite Hy.
  destruct (Compare byPubDate pivot y) as [order|e] eqn:Hc; simpl; [|done].
  by apply Compare_Return_dated in Hc as [Hp _].
Qed.

Lemma BinaryInsertionSort_Return_dated sorted rest s :
  sorted ≠ [] →
  BinaryInsertionSort byPubDate sorted rest = Return s →
  Forall dated rest.
Proof.
  revert sorted. induction rest as [|pivot rest IH]; intros sorted Hne; simpl;
    [constructor|].
  destruct (search byPubDate (length sorted) pivot sorted 0 (length sorted))
    as [pos|e] eqn:Hpos; simpl; [|done].
  intros H. constructor; [by eapply search_Return_dated|].
  eapply IH; [|exact H]. by destruct (take pos sorted).
Qed.

Lemma sort_byPubDate_dated l s :
  sort byPubDate l = Return s → (2 ≤ length l)%nat → Forall dated l.
Proof.
  unfold sort. destruct (CountAndMakeRun byPubDate l) as [[run rest]|e] eqn:Hm;
    simpl; [|done].
  intros Hs Hlen. rewrite <- (CountAndMakeRun_Permutation _ _ _ _ Hm).
  unfold CountAndMakeRun in Hm. destruct l as [|x [|y l]]; [simpl in Hlen; lia..|].
  destruct (Compare byPubDate y x) as [order|e] eqn:Hc; simpl in Hm; [|done].
  apply Compare_Return_dated in Hc as [Hy Hx].
  destruct (countRun byPubDate (order <? 0) y l) as [n|e] eqn:Hn; simpl in Hm; [|done].
  apply countRun_Return_dated in Hn. injection Hm as <- <-.
  assert (Forall dated (x :: y :: take n l)) as Hrun by (by repeat constructor).
  apply Forall_app. split.
  - destruct (order <? 0); [|done]. by rewrite reverse_Permutation.
  - eapply BinaryInsertionSort_Return_dated; [|exact Hs].
    destruct (order <? 0); [|done].
    intros Hnil%(f_equal length). rewrite length_reverse in Hnil. done.
Qed.

Lemma sort_byPubDate_Throw l :
  (2 ≤ length l)%nat → Exists (λ p, ¬ dated p) l →
  sort byPubDate l = Throw TypeError.
Proof.
  intros Hlen Hex. destruct (sort byPubDate l) as [s|[]] eqn:Hs; [|done].
  apply sort_byPubDate_dated in Hs; [|done].
  apply Exists_exists in Hex as (p & Hin & Hp).
  rewrite Forall_forall in Hs. destruct Hp. apply Hs. done.
Qed.

Lemma sort_byPubDate_short l :
  (length l ≤ 1)%nat → sort byPubDate l = Return l.
Proof. destruct l as [|x [|y l]]; simpl; [done..|lia]. Qed.

Lemma sort_byPubDate_Throw_inv l e :
  sort byPubDate l = Throw e →
  (2 ≤ length l)%nat ∧ Exists (λ p, BlogData.pubDate (data p) = None) l.
Proof.
  intros Hs. split.
  - destruct (decide (2 ≤ length l)%nat) as [|Hn]; [done|].
    rewrite sort_byPubDate_short in Hs by lia. done.
  - destruct (decide (Forall dated l)) as [Hd|Hd].
    + destruct (sort_byPubDate_Return _ Hd) as [s Hs']. congruence.
    + apply not_Forall_Exists in Hd; [|apply _].
      eapply Exists_impl; [exact Hd|]. intros p Hp. simpl in Hp.
      destruct (BlogData.pubDate (data p)) as [d|] eqn:E; [|done].
      destruct Hp. unfold dated. rewrite E. eauto.
Qed.

(** *** Posts that are in order already *)

Lemma countRun_sorted prev rest :
  StronglySorted notOlder (prev :: rest) →
  countRun byPubDate false prev rest = Return (length rest).
Proof.
  revert prev. induction rest as [|x rest IH]; intros prev Hs; simpl; [done|].
  apply StronglySorted_inv in Hs as [Hs Hp].
  apply Forall_cons in Hp as [(tp & tx & Hp & Hx & Hle) _].
  rewrite (Compare_valid x prev tx tp Hx Hp). simpl.
  pose proof (roundDouble_neg (tp - tx)).
  rewrite (proj2 (Z.ltb_ge _ _)) by lia. by rewrite (IH x Hs).
Qed.

Lemma sort_byPubDate_sorted_id l :
  StronglySorted notOlder l → sort byPubDate l = Return l.
Proof.
  intros Hs. destruct l as [|x [|y l]]; [done..|].
  unfold sort, CountAndMakeRun.
  pose proof Hs as [Hs' [(tx & ty & Hx & Hy & Hle) _]%Forall_cons]%StronglySorted_inv.
  rewrite (Compare_valid y x ty tx Hy Hx). simpl.
  pose proof (roundDouble_neg (tx - ty)).
  rewrite (proj2 (Z.ltb_ge _ _)) by lia.
  rewrite (countRun_sorted y l Hs'). simpl.
  by rewrite take_ge, drop_ge by lia.
Qed.

(** *** Uniqueness *)

Lemma notOlder_head_max x dx y dy l :
  timeOf x = Some dx → timeOf y = Some dy →
  Forall (notOlder y) l → x ∈ l → dx ≤ dy.
Proof.
  intros Hx Hy Hall Hin. rewrite Forall_forall in Hall.
  destruct (Hall x Hin) as (a & b & Ha & Hb & Hab). simplify_eq. done.
Qed.

Lemma filter_head_elem {A : Type} (f : A → bool) (x : A) (l k : list A) :
  x :: l = List.filter f k → x ∈ k.
Proof.
  intros H. apply list_elem_of_In.
  eapply (proj1 (filter_In f x k)). rewrite <- H. by left.
Qed.

(** The order by date and the stability determine the result: two
    arrays of posts with valid dates, both in descending order of date,
    that agree on the posts of every single date are equal.  On such
    posts the result of the sort does not depend on the algorithm of the
    engine. *)
Lemma stable_sorted_unique (l1 l2 : list CollectionEntry) :
  Forall valid l1 → Forall valid l2 →
  StronglySorted notOlder l1 → StronglySorted notOlder l2 →
  (∀ d, List.filter (publishedAt d) l1 = List.filter (publishedAt d) l2) →
  l1 = l2.
Proof.
  intros Hd1. revert l2. induction Hd1 as [|x l1 [dx Hx] Hd1 IH];
    intros l2 Hd2 Hs1 Hs2 Heq.
  - destruct Hd2 as [|y l2 [dy Hy] _]; [done|].
    specialize (Heq dy). simpl in Heq.
    by rewrite (proj2 (publishedAt_true dy y) Hy) in Heq.
  - destruct Hd2 as [|y l2 [dy Hy] Hd2].
    { specialize (Heq dx). simpl in Heq.
      by rewrite (proj2 (publishedAt_true dx x) Hx) in Heq. }
    apply StronglySorted_inv in Hs1 as [Hs1 Hx1].
    apply StronglySorted_inv in Hs2 as [Hs2 Hy2].
    assert (dx ≤ dy) as Hle1.
    { pose proof (Heq dx) as H. simpl in H.
      rewrite (proj2 (publishedAt_true dx x) Hx) in H.
      destruct (publishedAt dx y) eqn:E.
      - apply publishedAt_true in E. simplify_eq. lia.
      - eapply (notOlder_head_max x dx y dy l2); [done..|].
        by eapply filter_head_elem. }
    assert (dy ≤ dx) as Hle2.
    { pose proof (Heq dy) as H. simpl in H.
      rewrite (proj2 (publishedAt_true dy y) Hy) in H.
      destruct (publishedAt dy x) eqn:E.
      - apply publishedAt_true in E. simplify_eq. lia.
      - eapply (notOlder_head_max y dy x dx l1); [done..|].
        eapply filter_head_elem. symmetry. exact H. }
    assert (dx = dy) as -> by lia.
    assert (x = y) as ->.
    { pose proof (Heq dy) as H. simpl in H.
      rewrite (proj2 (publishedAt_true dy x) Hx),
              (proj2 (publishedAt_true dy y) Hy) in H. by injection H. }
    f_equal. apply IH; [done..|].
    intros d. pose proof (Heq d) as H. simpl in H.
    destruct (publishedAt d y); [by injection H|done].
Qed.

(** The scenario of three posts, the third a draft: the second, more
    recent, post comes first and the draft is left out. *)
Example GET_scenario :
  fst (GET noSite (storeOf [postA; postB; postC])) =
  Return {| RSSOptions.title := "Lucas William Bateson - Blog";
            RSSOptions.description :=
              "Personal blog and project log - thoughts on development, technology, and building things.";
            RSSOptions.site := "https://blog.l3s.me";
            RSSOptions.items := [toItem postB; toItem postA];
            RSSOptions.customData := "<language>en-us</language>" |}.
Proof. vm_compute. reflexivity. Qed.

(** ** One run of the handler *)

Lemma heap_read_fresh (h : list (list CollectionEntry)) (arr : list CollectionEntry) :
  (h ++ [arr])%list !!! length h = arr.
Proof. by rewrite list_lookup_total_middle. Qed.

Lemma heap_write_fresh (h : list (list CollectionEntry)) (arr arr' : list CollectionEntry) :
  <[length h := arr']> (h ++ [arr])%list = (h ++ [arr'])%list.
Proof.
  rewrite insert_app_r_alt by lia. by rewrite Nat.sub_diag.
Qed.

Lemma GET_Return context w s :
  sort byPubDate (blogOf w) = Return s →
  GET context w =
  (Return {| RSSOptions.title := "Lucas William Bateson - Blog";
             RSSOptions.description :=
               "Personal blog and project log - thoughts on development, technology, and building things.";
             RSSOptions.site := or_else (APIContext.site context) "https://blog.l3s.me";
             RSSOptions.items := List.map toItem s;
             RSSOptions.customData := "<language>en-us</language>" |},
   after w s).
Proof.
  intros Hs. unfold GET, getCollection, Array_sort, Array_map, alloc, read,
    write, lift, mbind, M_bind, mret, M_ret. cbn [heap collections].
  rewrite heap_read_fresh. fold (blogOf w). rewrite Hs.
  cbv beta iota. cbn [heap]. by rewrite heap_write_fresh, heap_read_fresh.
Qed.

Lemma GET_Throw context w e :
  sort byPubDate (blogOf w) = Throw e →
  GET context w = (Throw e, after w (blogOf w)).
Proof.
  intros Hs. unfold GET, getCollection, Array_sort, Array_map, alloc, read,
    write, lift, mbind, M_bind, mret, M_ret. cbn [heap collections].
  rewrite heap_read_fresh. fold (blogOf w). rewrite Hs. done.
Qed.

(** Inversion of a run that returns a document. *)
Lemma GET_inv context w doc w' :
  GET context w = (Return doc, w') →
  ∃ s, sort byPubDate (blogOf w) = Return s ∧
       RSSOptions.items doc = List.map toItem s ∧
       w' = after w s.
Proof.
  destruct (sort byPubDate (blogOf w)) as [s|e] eqn:Hs.
  - rewrite (GET_Return _ _ _ Hs). intros [= <- <-]. eauto.
  - by rewrite (GET_Throw _ _ _ Hs).
Qed.

(** The handler returns a document when every non-draft post has a date,
    which the schema of the collection requires. *)
Lemma GET_total context w :
  Forall dated (blogOf w) →
  ∃ doc w', GET context w = (Return doc, w').
Proof.
  intros H. destruct (sort_byPubDate_Return _ H) as [s Hs].
  rewrite (GET_Return _ _ _ Hs). eauto.
Qed.

(** ** Auxiliary facts on lists *)

Lemma StronglySorted_map {A B : Type} (f : A → B) (R : A → A → Prop)
    (S : B → B → Prop) (l : list A) :
  (∀ a b, R a b → S (f a) (f b)) →
  StronglySorted R l → StronglySorted S (List.map f l).
Proof.
  intros HRS. induction 1 as [|x l Hl IH Hx]; simpl; constructor; [done|].
  apply Forall_map. eapply Forall_impl; [exact Hx|]. intros; by apply HRS.
Qed.

Lemma length_filter_bool {A : Type} (f : A → bool) (P : A → Prop)
    `{!∀ x, Decision (P x)} (l : list A) :
  (∀ x, f x = true ↔ P x) →
  List.filter f l = filter P l.
Proof.
  intros Hf. induction l as [|x l IH]; [done|]. simpl.
  rewrite filter_cons, IH. destruct (f x) eqn:E, (decide (P x)) as [HP|HP]; try done.
  - destruct HP. by apply Hf.
  - apply Hf in HP. congruence.
Qed.

Lemma notDraft_spec p :
  notDraft p = true ↔ BlogData.draft (data p) ≠ Some true.
Proof.
  unfold notDraft. destruct (BlogData.draft (data p)) as [[]|]; split; congruence.
Qed.

Lemma blogOf_elem p w :
  p ∈ blogOf w ↔ p ∈ collections w "blog" ∧ BlogData.draft (data p) ≠ Some true.
Proof.
  unfold blogOf. rewrite list_elem_of_In, filter_In, <- list_elem_of_In.
  by rewrite notDraft_spec.
Qed.

(** ** The site URL *)

(** C1, as stated, fails: with the empty string as site URL and the store
    of the scenario, the handler throws nothing and returns a document,
    whose site is the fallback URL. *)
Lemma GET_emptySite_returns :
  APIContext.site emptySite = Some "" ∧
  (∃ doc w', GET emptySite (storeOf [postA; postB; postC]) = (Return doc, w') ∧
             RSSOptions.site doc = "https://blog.l3s.me") ∧
  ¬ ∃ e w', GET emptySite (storeOf [postA; postB; postC]) = (Throw e, w').
Proof.
  split; [done|]. split.
  - eexists _, _. split; [vm_compute; reflexivity|done].
  - intros (e & w' & H). vm_compute in H. discriminate H.
Qed.

(** C1, amended: when the site URL is missing or empty the handler does
    not fail on that account; it runs exactly as with the fallback URL
    [https://blog.l3s.me] configured, every document it returns has that
    URL as its site, and it returns one whenever the non-draft posts have
    their dates. *)
Theorem GET_site_fallback (context : APIContext.t) (w : World) :
  APIContext.site context = None ∨ APIContext.site context = Some "" →
  GET context w = GET {| APIContext.site := Some "https://blog.l3s.me" |} w ∧
  (∀ doc w', GET context w = (Return doc, w') →
             RSSOptions.site doc = "https://blog.l3s.me") ∧
  (Forall dated (blogOf w) → ∃ doc w', GET context w = (Return doc, w')).
Proof.
  intros Hsite.
  assert (or_else (APIContext.site context) "https://blog.l3s.me"
          = "https://blog.l3s.me") as Hor by (by destruct Hsite as [-> | ->]).
  split; [|split].
  - destruct (sort byPubDate (blogOf w)) as [s|e] eqn:Hs.
    + rewrite !(GET_Return _ _ _ Hs). by rewrite Hor.
    + by rewrite !(GET_Throw _ _ _ Hs).
  - intros doc w' H. destruct (GET_inv _ _ _ _ H) as (s & Hs & _ & _).
    rewrite (GET_Return _ _ _ Hs) in H. injection H as <- _. exact Hor.
  - apply GET_total.
Qed.

Lemma GET_site_fallback_witness :
  GET noSite (storeOf [postA; postB; postC])
  = GET {| APIContext.site := Some "https://blog.l3s.me" |} (storeOf [postA; postB; postC]) ∧
  (∀ doc w', GET noSite (storeOf [postA; postB; postC]) = (Return doc, w') →
             RSSOptions.site doc = "https://blog.l3s.me") ∧
  (Forall dated (blogOf (storeOf [postA; postB; postC])) →
   ∃ doc w', GET noSite (storeOf [postA; postB; postC]) = (Return doc, w')).
Proof.
  apply (GET_site_fallback noSite (storeOf [postA; postB; postC])).
  left. reflexivity.
Defined.

(** ** Posts without a date *)

(** C2, as stated, fails: a single non-draft post without a publication
    date is never compared with another post; the handler throws nothing
    and returns a document whose one entry has no date. *)
Lemma GET_single_undated_returns :
  blogOf (storeOf [postU; postC]) = [postU] ∧
  BlogData.pubDate (data postU) = None ∧
  (∃ doc w', GET someSite (storeOf [postU; postC]) = (Return doc, w') ∧
             RSSOptions.items doc = [toItem postU]) ∧
  ¬ ∃ e w', GET someSite (storeOf [postU; postC]) = (Throw e, w').
Proof.
  split; [done|]. split; [done|]. split.
  - eexists _, _. split; [vm_compute; reflexivity|done].
  - intros (e & w' & H). vm_compute in H. discriminate H.
Qed.

(** C2, amended: when two or more posts are not drafts and one of them has
    no publication date, the whole call fails, with the [TypeError] of the
    date comparison, and no document is returned. *)
Theorem GET_undated_Throw (context : APIContext.t) (w : World) :
  (2 ≤ length (blogOf w))%nat →
  Exists (λ p, BlogData.pubDate (data p) = None) (blogOf w) →
  ∃ w', GET context w = (Throw TypeError, w').
Proof.
  intros Hlen Hex. eexists. apply GET_Throw, sort_byPubDate_Throw; [done|].
  eapply Exists_impl; [exact Hex|]. intros p Hp [d Hd]. congruence.
Qed.

Lemma GET_undated_Throw_witness :
  ∃ w', GET someSite (storeOf [postA; postU; postB]) = (Throw TypeError, w').
Proof.
  apply (GET_undated_Throw someSite (storeOf [postA; postU; postB])).
  - vm_compute. lia.
  - apply Exists_cons_tl, Exists_cons_hd. reflexivity.
Defined.

(** ** Filter, sort and projection *)

(** C3: the entries of a returned document are the projections of posts
    of the store, none of which has [draft] equal to [true]; these posts
    are the non-draft posts of the store, rearranged. *)
Theorem GET_no_draft (context : APIContext.t) (w w' : World) (doc : RSSOptions.t) :
  GET context w = (Return doc, w') →
  ∃ posts, RSSOptions.items doc = List.map toItem posts ∧
           Forall (λ p, p ∈ collections w "blog" ∧
                        BlogData.draft (data p) ≠ Some true) posts.
Proof.
  intros H. destruct (GET_inv _ _ _ _ H) as (s & Hs & Hitems & _).
  exists s. split; [done|]. apply Forall_forall. intros p Hp.
  apply blogOf_elem. by rewrite <- (sort_Permutation _ _ _ Hs).
Qed.

Lemma GET_no_draft_witness :
  ∃ posts,
    [toItem postB; toItem postA] = List.map toItem posts ∧
    Forall (λ p, p ∈ [postA; postB; postC] ∧
                 BlogData.draft (data p) ≠ Some true) posts.
Proof.
  apply (GET_no_draft noSite (storeOf [postA; postB; postC])
           (after (storeOf [postA; postB; postC]) [postB; postA])
           {| RSSOptions.title := "Lucas William Bateson - Blog";
              RSSOptions.description :=
                "Personal blog and project log - thoughts on development, technology, and building things.";
              RSSOptions.site := "https://blog.l3s.me";
              RSSOptions.items := [toItem postB; toItem postA];
              RSSOptions.customData := "<language>en-us</language>" |}).
  vm_compute. reflexivity.
Defined.

(** C4, as stated, fails: a post with an Invalid Date compares equal to
    every other post, and between an older and a more recent post it
    keeps them as they are in the store; the entry of 2025-01-01 precedes
    the entry of 2025-03-01. *)
Lemma GET_invalid_unsorted :
  ∃ doc w',
    GET noSite (storeOf [postA; postN; postB]) = (Return doc, w') ∧
    RSSOptions.items doc !! 0%nat = Some (toItem postA) ∧
    RSSOptions.items doc !! 2%nat = Some (toItem postB) ∧
    timeOfDate (RSSFeedItem.pubDate (toItem postA)) = Some jan1 ∧
    timeOfDate (RSSFeedItem.pubDate (toItem postB)) = Some mar1 ∧
    ¬ (mar1 ≤ jan1).
Proof.
  eexists _, _. split; [vm_compute; reflexivity|].
  repeat (split; [reflexivity|]). vm_compute. by intros H.
Qed.

(** C4, amended: when every non-draft post has a valid publication date,
    the handler returns a document in which an entry that precedes
    another one has a publication date that is the same or later. *)
Theorem GET_sorted (context : APIContext.t) (w : World) :
  Forall valid (blogOf w) →
  ∃ doc w',
    GET context w = (Return doc, w') ∧
    ∀ (i j : nat) (e1 e2 : RSSFeedItem.t),
      (i < j)%nat →
      RSSOptions.items doc !! i = Some e1 →
      RSSOptions.items doc !! j = Some e2 →
      ∃ d1 d2, timeOfDate (RSSFeedItem.pubDate e1) = Some d1 ∧
               timeOfDate (RSSFeedItem.pubDate e2) = Some d2 ∧ d2 ≤ d1.
Proof.
  intros Hv. destruct (sort_byPubDate_valid _ Hv) as (s & Hs & Hss & _).
  rewrite (GET_Return _ _ _ Hs). eexists _, _. split; [done|]. simpl.
  intros i j e1 e2 Hij H1 H2.
  apply (StronglySorted_lookup
           (λ e1 e2, ∃ d1 d2, timeOfDate (RSSFeedItem.pubDate e1) = Some d1 ∧
                              timeOfDate (RSSFeedItem.pubDate e2) = Some d2 ∧ d2 ≤ d1)
           (List.map toItem s) i j); [|done..].
  eapply StronglySorted_map; [|exact Hss].
  intros a b (x & y & Hx & Hy & Hxy). exists x, y. done.
Qed.

Lemma GET_sorted_witness :
  ∃ doc w',
    GET noSite (storeOf [postA; postB; postC; postZ]) = (Return doc, w') ∧
    RSSOptions.items doc = [toItem postB; toItem postZ; toItem postA] ∧
    ∃ d1 d2, timeOfDate (RSSFeedItem.pubDate (toItem postB)) = Some d1 ∧
             timeOfDate (RSSFeedItem.pubDate (toItem postA)) = Some d2 ∧ d2 ≤ d1.
Proof.
  destruct (GET_sorted noSite (storeOf [postA; postB; postC; postZ]))
    as (doc & w' & Hrun & Hsorted).
  { change (blogOf (storeOf [postA; postB; postC; postZ])) with [postA; postB; postZ].
    repeat constructor; eexists; reflexivity. }
  exists doc, w'. split; [exact Hrun|].
  assert (RSSOptions.items doc = [toItem postB; toItem postZ; toItem postA]) as Hitems.
  { vm_compute in Hrun. injection Hrun as <- _. reflexivity. }
  split; [exact Hitems|].
  apply (Hsorted 0%nat 2%nat); [lia|by rewrite Hitems..].
Defined.

(** C5, as stated, fails: with Invalid Dates in the store the comparator
    is not a consistent comparison and the sort need not be stable; here
    the two posts of 2025-01-01 come out in the reverse of their order in
    the store. *)
Lemma GET_invalid_unstable :
  ∃ doc w',
    GET noSite (storeOf [postZ; postB; postN; postO; postN'; postX; postY])
    = (Return doc, w') ∧
    RSSOptions.items doc
    = List.map toItem [postB; postZ; postN; postY; postO; postN'; postX] ∧
    timeOf postX = Some jan1 ∧ timeOf postY = Some jan1 ∧
    List.filter (publishedAt jan1)
      (blogOf (storeOf [postZ; postB; postN; postO; postN'; postX; postY]))
    = [postX; postY] ∧
    List.filter (itemAt jan1) (RSSOptions.items doc) = [toItem postY; toItem postX].
Proof.
  eexists _, _. split; [vm_compute; reflexivity|].
  repeat (split; [reflexivity|]). reflexivity.
Qed.

(** C5, amended: when every non-draft post has a valid publication date,
    the handler returns a document in which the entries of any one
    publication date are the projections of the non-draft posts of that
    date in the order of the store, and a repeated call on the same store
    returns the same document. *)
Theorem GET_stable (context : APIContext.t) (w : World) :
  Forall valid (blogOf w) →
  ∃ doc w',
    GET context w = (Return doc, w') ∧
    (∀ d : Z,
       List.filter (itemAt d) (RSSOptions.items doc)
       = List.map toItem (List.filter (publishedAt d) (blogOf w))) ∧
    fst (GET context w') = Return doc.
Proof.
  intros Hv. destruct (sort_byPubDate_valid _ Hv) as (s & Hs & _ & Hf).
  rewrite (GET_Return _ _ _ Hs). eexists _, _. split; [done|]. split.
  - intros d. simpl. rewrite <- Hf.
    clear. induction s as [|p s IH]; [done|]. simpl.
    change (itemAt d (toItem p)) with (publishedAt d p).
    destruct (publishedAt d p); simpl; by rewrite IH.
  - assert (blogOf (after w s) = blogOf w) as Hb by done.
    rewrite (GET_Return context (after w s) s); [done|]. by rewrite Hb.
Qed.

Lemma GET_stable_witness :
  ∃ doc w',
    GET noSite (storeOf [postO; postX; postC; postB; postY]) = (Return doc, w') ∧
    List.filter (itemAt jan1) (RSSOptions.items doc) = [toItem postX; toItem postY] ∧
    fst (GET noSite w') = Return doc.
Proof.
  destruct (GET_stable noSite (storeOf [postO; postX; postC; postB; postY]))
    as (doc & w' & Hrun & Hd & Hr).
  { change (blogOf (storeOf [postO; postX; postC; postB; postY]))
      with [postO; postX; postB; postY].
    repeat constructor; eexists; reflexivity. }
  exists doc, w'. split; [exact Hrun|]. split; [exact (Hd jan1)|exact Hr].
Defined.

(** C6: after a run that returns a document, the array of the sorted
    posts holds the non-draft posts of the store, and each entry of the
    document copies the title, the description and the publication date of
    the post at the same position, links to [/blog/{slug}/] and has the
    tags of the post as its categories. *)
Theorem GET_projection (context : APIContext.t) (w w' : World) (doc : RSSOptions.t) :
  GET context w = (Return doc, w') →
  ∃ sortedPosts,
    heap w' !! length (heap w) = Some sortedPosts ∧
    sortedPosts ≡ₚ blogOf w ∧
    Forall2 (λ post item,
               RSSFeedItem.title item = BlogData.title (data post) ∧
               RSSFeedItem.description item = BlogData.description (data post) ∧
               RSSFeedItem.pubDate item = BlogData.pubDate (data post) ∧
               RSSFeedItem.link item = "/blog/" +:+ slug post +:+ "/" ∧
               RSSFeedItem.categories item = BlogData.tags (data post))
            sortedPosts (RSSOptions.items doc).
Proof.
  intros H. destruct (GET_inv _ _ _ _ H) as (s & Hs & -> & ->).
  exists s. split; [|split].
  - simpl. by rewrite list_lookup_middle.
  - by eapply sort_Permutation.
  - clear. induction s as [|p s IH]; simpl; constructor; done.
Qed.

Lemma GET_projection_witness :
  ∃ doc w',
    GET someSite (storeOf [postA; postB; postC]) = (Return doc, w') ∧
    ∃ sortedPosts,
      heap w' !! 0%nat = Some sortedPosts ∧
      sortedPosts ≡ₚ [postA; postB] ∧
      Forall2 (λ post item,
                 RSSFeedItem.title item = BlogData.title (data post) ∧
                 RSSFeedItem.description item = BlogData.description (data post) ∧
                 RSSFeedItem.pubDate item = BlogData.pubDate (data post) ∧
                 RSSFeedItem.link item = "/blog/" +:+ slug post +:+ "/" ∧
                 RSSFeedItem.categories item = BlogData.tags (data post))
              sortedPosts (RSSOptions.items doc).
Proof.
  eexists _, _. split; [vm_compute; reflexivity|].
  apply (GET_projection someSite (storeOf [postA; postB; postC])).
  vm_compute. reflexivity.
Defined.

(** ** Purity *)

(** C7: a run leaves the content store and every array that existed
    before it as they were, and its outcome, a document or an exception,
    is determined by the context and the store alone: a second run, in
    the world the first one leaves or in any world with the same store,
    has the same outcome. *)
Theorem GET_pure (context : APIContext.t) (w w1 : World) (r : outcome RSSOptions.t) :
  GET context w = (r, w1) →
  collections w1 = collections w ∧
  (∀ (l : loc) (arr : list CollectionEntry),
     heap w !! l = Some arr → heap w1 !! l = Some arr) ∧
  fst (GET context w1) = r ∧
  (∀ w2, collections w2 = collections w → fst (GET context w2) = r).
Proof.
  intros H.
  assert (∀ w2, collections w2 = collections w → fst (GET context w2) = r) as Hdet.
  { intros w2 Hc. assert (blogOf w2 = blogOf w) as Hb by (unfold blogOf; by rewrite Hc).
    destruct (sort byPubDate (blogOf w)) as [s|e] eqn:Hs.
    - rewrite (GET_Return _ _ _ Hs) in H. injection H as <- _.
      rewrite (GET_Return context w2 s); [done|]. by rewrite Hb.
    - rewrite (GET_Throw _ _ _ Hs) in H. injection H as <- _.
      rewrite (GET_Throw context w2 e); [done|]. by rewrite Hb. }
  assert (∃ arr, w1 = after w arr) as [arr ->].
  { destruct (sort byPubDate (blogOf w)) as [s|e] eqn:Hs.
    - rewrite (GET_Return _ _ _ Hs) in H. injection H as _ <-. eauto.
    - rewrite (GET_Throw _ _ _ Hs) in H. injection H as _ <-. eauto. }
  split; [done|]. split; [|split; [by apply Hdet|done]].
  intros l a Hl. simpl. by apply lookup_app_l_Some.
Qed.

Lemma GET_pure_witness :
  ∃ r w1,
    GET someSite (storeOf [postA; postB; postC]) = (r, w1) ∧
    collections w1 = collections (storeOf [postA; postB; postC]) ∧
    fst (GET someSite w1) = r.
Proof.
  eexists _, _. split; [vm_compute; reflexivity|].
  destruct (GET_pure someSite (storeOf [postA; postB; postC]) _ _
              ltac:(vm_compute; reflexivity)) as (Hc & _ & Hr & _).
  split; [exact Hc|exact Hr].
Defined.

(** ** The document *)

(** C8: when every post of the store is a draft, the handler returns a
    document: its entry sequence is empty, and its title, description,
    non-empty site URL and language are in place. *)
Theorem GET_no_posts (context : APIContext.t) (w : World) :
  Forall (λ p, BlogData.draft (data p) = Some true) (collections w "blog") →
  (∃ w', GET context w =
    (Return {| RSSOptions.title := "Lucas William Bateson - Blog";
               RSSOptions.description :=
                 "Personal blog and project log - thoughts on development, technology, and building things.";
               RSSOptions.site := or_else (APIContext.site context) "https://blog.l3s.me";
               RSSOptions.items := [];
               RSSOptions.customData := "<language>en-us</language>" |}, w')) ∧
  or_else (APIContext.site context) "https://blog.l3s.me" ≠ "".
Proof.
  intros Hall. split.
  - assert (blogOf w = []) as Hb.
    { unfold blogOf. induction Hall as [|p l Hp Hl IH]; [done|].
      simpl. unfold notDraft at 1. by rewrite Hp. }
    eexists. rewrite (GET_Return context w []); [done|]. by rewrite Hb.
  - unfold or_else. destruct (APIContext.site context) as [s|]; [|done].
    destruct (String.eqb s "") eqn:E; [done|]. by apply String.eqb_neq.
Qed.

Lemma GET_no_posts_witness :
  (∃ w', GET noSite (storeOf [postC]) =
    (Return {| RSSOptions.title := "Lucas William Bateson - Blog";
               RSSOptions.description :=
                 "Personal blog and project log - thoughts on development, technology, and building things.";
               RSSOptions.site := "https://blog.l3s.me";
               RSSOptions.items := [];
               RSSOptions.customData := "<language>en-us</language>" |}, w')) ∧
  "https://blog.l3s.me" ≠ "".
Proof.
  apply (GET_no_posts noSite (storeOf [postC])).
  constructor; [reflexivity|constructor].
Defined.

(** C9: every returned document has the same title, the same description
    and the language [en-us], whatever the store and the context. *)
Theorem GET_metadata (context : APIContext.t) (w w' : World) (doc : RSSOptions.t) :
  GET context w = (Return doc, w') →
  RSSOptions.title doc = "Lucas William Bateson - Blog" ∧
  RSSOptions.description doc =
    "Personal blog and project log - thoughts on development, technology, and building things." ∧
  RSSOptions.customData doc = "<language>" +:+ "en-us" +:+ "</language>".
Proof.
  intros H. destruct (GET_inv _ _ _ _ H) as (s & Hs & _ & _).
  rewrite (GET_Return _ _ _ Hs) in H. by injection H as <- _.
Qed.

Lemma GET_metadata_witness :
  ∃ doc w',
    GET someSite (storeOf [postX; postB]) = (Return doc, w') ∧
    RSSOptions.title doc = "Lucas William Bateson - Blog" ∧
    RSSOptions.description doc =
      "Personal blog and project log - thoughts on development, technology, and building things." ∧
    RSSOptions.customData doc = "<language>" +:+ "en-us" +:+ "</language>".
Proof.
  eexists _, _. split; [vm_compute; reflexivity|].
  eapply (GET_metadata someSite (storeOf [postX; postB])).
  vm_compute. reflexivity.
Defined.

(** C10: a returned document has exactly as many entries as the store has
    posts whose [draft] is not [true]. *)
Theorem GET_count (context : APIContext.t) (w w' : World) (doc : RSSOptions.t) :
  GET context w = (Return doc, w') →
  length (RSSOptions.items doc) =
  length (filter (λ p, BlogData.draft (data p) ≠ Some true) (collections w "blog")).
Proof.
  intros H. destruct (GET_inv _ _ _ _ H) as (s & Hs & -> & _).
  rewrite length_map, (sort_length _ _ _ Hs). unfold blogOf.
  by rewrite (length_filter_bool notDraft _ _ notDraft_spec).
Qed.

Lemma GET_count_witness :
  ∃ doc w',
    GET someSite (storeOf [postA; postX; postC; postB; postA]) = (Return doc, w') ∧
    length (RSSOptions.items doc) = 4%nat.
Proof.
  eexists _, _. split; [vm_compute; reflexivity|].
  eapply (GET_count someSite (storeOf [postA; postX; postC; postB; postA])).
  vm_compute. reflexivity.
Defined.

(** ** Further properties of the handler *)

(** *** When the handler throws *)

(** X1: the handler throws in its own code, before it calls [rss],
    exactly when two or more posts are not drafts and one of these has no
    [pubDate]; in every other case, Invalid Dates included, it reaches the
    call of [rss] with the options object. *)
Theorem GET_Throw_iff (context : APIContext.t) (w : World) :
  (∃ e w', GET context w = (Throw e, w')) ↔
  (2 ≤ length (blogOf w))%nat ∧
  Exists (λ p, BlogData.pubDate (data p) = None) (blogOf w).
Proof.
  split.
  - intros (e & w' & H). destruct (sort byPubDate (blogOf w)) as [s|e'] eqn:Hs.
    + by rewrite (GET_Return _ _ _ Hs) in H.
    + by eapply sort_byPubDate_Throw_inv.
  - intros [Hlen Hex]. eexists _, _. apply GET_Throw, sort_byPubDate_Throw; [done|].
    eapply Exists_impl; [exact Hex|]. intros p Hp [d Hd]. congruence.
Qed.

Lemma GET_Throw_iff_witness :
  (∃ e w', GET noSite (storeOf [postU; postD; postB]) = (Throw e, w')) ∧
  ¬ (∃ e w', GET noSite (storeOf [postU; postD]) = (Throw e, w')) ∧
  ¬ (∃ e w', GET noSite (storeOf [postN; postD; postB]) = (Throw e, w')).
Proof.
  split; [|split].
  - apply (proj2 (GET_Throw_iff noSite (storeOf [postU; postD; postB]))).
    split; [vm_compute; lia|]. apply Exists_cons_hd. reflexivity.
  - intros H.
    apply (proj1 (GET_Throw_iff noSite (storeOf [postU; postD]))) in H.
    destruct H as [H _]. vm_compute in H. lia.
  - intros H.
    apply (proj1 (GET_Throw_iff noSite (storeOf [postN; postD; postB]))) in H.
    destruct H as [_ H].
    change (blogOf (storeOf [postN; postD; postB])) with [postN; postB] in H.
    apply Exists_cons in H as [H|H]; [discriminate H|].
    apply Exists_cons in H as [H|H]; [discriminate H|].
    by apply Exists_nil in H.
Defined.

(** *** The entries as a multiset *)

(** X2: the entries of a returned document are the projections of the
    non-draft posts of the store, each exactly as often as it is in the
    store: none is lost and none is repeated. *)
Theorem GET_items_Permutation (context : APIContext.t) (w w' : World) (doc : RSSOptions.t) :
  GET context w = (Return doc, w') →
  RSSOptions.items doc ≡ₚ
  toItem <$> filter (λ p, BlogData.draft (data p) ≠ Some true) (collections w "blog").
Proof.
  intros H. destruct (GET_inv _ _ _ _ H) as (s & Hs & -> & _).
  rewrite <- (length_filter_bool notDraft _ _ notDraft_spec).
  apply Permutation_map. by eapply sort_Permutation.
Qed.

Lemma GET_items_Permutation_witness :
  ∃ doc w',
    GET noSite (storeOf [postA; postC; postB; postA]) = (Return doc, w') ∧
    RSSOptions.items doc ≡ₚ [toItem postA; toItem postB; toItem postA].
Proof.
  eexists _, _. split; [vm_compute; reflexivity|].
  eapply (GET_items_Permutation noSite (storeOf [postA; postC; postB; postA])).
  vm_compute. reflexivity.
Defined.

(** *** A store that is already in order *)

(** X3: when the non-draft posts of the store are already in descending
    order of date, the handler returns a document whose entries follow the
    order of the store. *)
Theorem GET_store_in_order (context : APIContext.t) (w : World) :
  StronglySorted notOlder (blogOf w) →
  ∃ doc w', GET context w = (Return doc, w') ∧
            RSSOptions.items doc = List.map toItem (blogOf w).
Proof.
  intros Hs. apply sort_byPubDate_sorted_id in Hs.
  rewrite (GET_Return _ _ _ Hs). eauto.
Qed.

Lemma GET_store_in_order_witness :
  ∃ doc w', GET noSite (storeOf [postB; postC; postX; postY]) = (Return doc, w') ∧
            RSSOptions.items doc = [toItem postB; toItem postX; toItem postY].
Proof.
  apply (GET_store_in_order noSite (storeOf [postB; postC; postX; postY])).
  change (blogOf (storeOf [postB; postC; postX; postY])) with [postB; postX; postY].
  repeat constructor; unfold notOlder; eexists _, _;
    (split; [reflexivity|split; [reflexivity|vm_compute; discriminate]]).
Defined.

(** *** The comparator *)

(** X4: on posts with valid dates the comparator is a consistent
    comparison.  It returns a number, zero for a post and itself, whose
    sign is that of the time of [b] less the time of [a]: negative exactly
    when [a] is the more recent, zero exactly when the times are equal.
    Swapping the arguments negates the result, and the order it gives is
    transitive.  (The results are doubles: at the ends of the range of
    dates they are rounded, and only their signs add up.) *)
Theorem byPubDate_consistent (a b c : CollectionEntry) (ta tb tc : Z) :
  timeOf a = Some ta → timeOf b = Some tb → timeOf c = Some tc →
  byPubDate a a = Return (Num 0) ∧
  ∃ ab bc ac,
    byPubDate a b = Return (Num ab) ∧
    byPubDate b a = Return (Num (- ab)) ∧
    byPubDate b c = Return (Num bc) ∧
    byPubDate a c = Return (Num ac) ∧
    (ab < 0 ↔ tb < ta) ∧ (ab = 0 ↔ tb = ta) ∧
    (ab ≤ 0 → bc ≤ 0 → ac ≤ 0) ∧
    (ab = 0 → bc = 0 → ac = 0).
Proof.
  intros (da & Ha & Hta)%timeOf_Some (db & Hb & Htb)%timeOf_Some
         (dc & Hc & Htc)%timeOf_Some.
  split.
  - rewrite (proj2 (byPubDate_Return a a _)) by eauto.
    by rewrite Hta; simpl; rewrite Z.sub_diag.
  - exists (roundDouble (tb - ta)), (roundDouble (tc - tb)), (roundDouble (tc - ta)).
    pose proof (roundDouble_sgn (tb - ta)). pose proof (roundDouble_sgn (tc - tb)).
    pose proof (roundDouble_sgn (tc - ta)).
    repeat split; try lia.
    + rewrite (proj2 (byPubDate_Return a b _)) by eauto. by rewrite Hta, Htb.
    + rewrite (proj2 (byPubDate_Return b a _)) by eauto. rewrite Hta, Htb. simpl.
      by rewrite <- roundDouble_opp, Z.opp_sub_distr, Z.add_comm, Z.add_opp_r.
    + rewrite (proj2 (byPubDate_Return b c _)) by eauto. by rewrite Htb, Htc.
    + rewrite (proj2 (byPubDate_Return a c _)) by eauto. by rewrite Hta, Htc.
Qed.

Lemma byPubDate_consistent_witness :
  byPubDate postLo postLo = Return (Num 0) ∧
  byPubDate postLo postHi = Return (Num 17280000000000000) ∧
  byPubDate postHi postLo = Return (Num (- 17280000000000000)) ∧
  byPubDate postHi postMid = Return (Num (- 8640000000000000)) ∧
  byPubDate postLo postMid = Return (Num 8639999999999999).
Proof.
  destruct (byPubDate_consistent postLo postHi postMid
              (-8639999999999999) 8640000000000000 0)
    as (H0 & ab & bc & ac & Hab & Hba & Hbc & Hac & _); [reflexivity..|].
  split; [exact H0|].
  assert (ab = 17280000000000000) as -> by (vm_compute in Hab; congruence).
  assert (bc = - 8640000000000000) as -> by (vm_compute in Hbc; congruence).
  assert (ac = 8639999999999999) as -> by (vm_compute in Hac; congruence).
  repeat split; assumption.
Defined.

(** *** Links *)

Lemma append_slash_inj (a b : string) : a +:+ "/" = b +:+ "/" → a = b.
Proof.
  revert b. induction a as [|c a IH]; intros [|c' b]; simpl; try done.
  - intros [= _ H]. by destruct b.
  - intros [= _ H]. by destruct a.
  - intros [= -> H]. f_equal. by apply IH.
Qed.

Lemma link_inj (p q : CollectionEntry) :
  RSSFeedItem.link (toItem p) = RSSFeedItem.link (toItem q) → slug p = slug q.
Proof.
  simpl. intros [= H]. by apply append_slash_inj.
Qed.

(** X5: when the slugs of the store are pairwise distinct, so are the
    links of the entries of a returned document. *)
Theorem GET_links_NoDup (context : APIContext.t) (w w' : World) (doc : RSSOptions.t) :
  NoDup (slug <$> collections w "blog") →
  GET context w = (Return doc, w') →
  NoDup (RSSFeedItem.link <$> RSSOptions.items doc).
Proof.
  intros Hnd H. destruct (GET_inv _ _ _ _ H) as (s & Hs & -> & _).
  apply sort_Permutation in Hs.
  assert (NoDup (slug <$> s)) as Hs'.
  { rewrite Hs. unfold blogOf.
    rewrite (length_filter_bool notDraft _ _ notDraft_spec).
    eapply sublist_NoDup; [exact Hnd|]. apply fmap_sublist, sublist_filter. }
  clear -Hs'. induction s as [|p s IH]; [constructor|].
  apply NoDup_cons in Hs' as [Hp Hs']. simpl. apply NoDup_cons. split; [|by apply IH].
  intros Hin. apply Hp.
  apply list_elem_of_fmap in Hin as (e & He & Hin).
  apply list_elem_of_fmap in Hin as (q & -> & Hin).
  apply list_elem_of_fmap. exists q. split; [|done].
  by apply (link_inj p q).
Qed.

Lemma GET_links_NoDup_witness :
  ∃ doc w',
    GET noSite (storeOf [postA; postC; postB; postX]) = (Return doc, w') ∧
    NoDup (RSSFeedItem.link <$> RSSOptions.items doc).
Proof.
  eexists _, _. split; [vm_compute; reflexivity|].
  eapply (GET_links_NoDup noSite (storeOf [postA; postC; postB; postX])).
  - apply (bool_decide_unpack _). vm_compute. exact I.
  - vm_compute. reflexivity.
Defined.

(** *** The site URL of a returned document *)

(** X6: the site URL of a returned document is never empty, and a
    non-empty configured site URL is passed on as it is. *)
Theorem GET_site_nonempty (context : APIContext.t) (w w' : World) (doc : RSSOptions.t) :
  GET context w = (Return doc, w') →
  RSSOptions.site doc ≠ "" ∧
  (∀ s, APIContext.site context = Some s → s ≠ "" → RSSOptions.site doc = s).
Proof.
  intros H. destruct (GET_inv _ _ _ _ H) as (sorted & Hs & _ & _).
  rewrite (GET_Return _ _ _ Hs) in H. injection H as <- _. simpl.
  unfold or_else. destruct (APIContext.site context) as [u|]; [|by split].
  destruct (String.eqb u "") eqn:E.
  - apply String.eqb_eq in E as ->. split; [done|]. by intros s [= <-].
  - apply String.eqb_neq in E. split; [done|]. by intros s [= <-].
Qed.

Lemma GET_site_nonempty_witness :
  ∃ doc w',
    GET someSite (storeOf [postA; postB]) = (Return doc, w') ∧
    RSSOptions.site doc ≠ "" ∧
    RSSOptions.site doc = "https://example.org".
Proof.
  eexists _, _. split; [vm_compute; reflexivity|].
  destruct (GET_site_nonempty someSite (storeOf [postA; postB]) _ _
              ltac:(vm_compute; reflexivity)) as [Hne Hs].
  split; [exact Hne|]. apply Hs; [reflexivity|discriminate].
Defined.

(** *** What the outcome depends on *)

(** The outcome of a run as a function of the array of non-draft posts. *)
Lemma GET_fst context w :
  fst (GET context w) =
  s ← sort byPubDate (blogOf w);
  Return {| RSSOptions.title := "Lucas William Bateson - Blog";
            RSSOptions.description :=
              "Personal blog and project log - thoughts on development, technology, and building things.";
            RSSOptions.site := or_else (APIContext.site context) "https://blog.l3s.me";
            RSSOptions.items := List.map toItem s;
            RSSOptions.customData := "<language>en-us</language>" |}.
Proof.
  destruct (sort byPubDate (blogOf w)) as [s|e] eqn:Hs.
  - by rewrite (GET_Return _ _ _ Hs).
  - by rewrite (GET_Throw _ _ _ Hs).
Qed.

Lemma filter_publishedAt_NoDup d l :
  NoDup (timeOf <$> l) →
  (length (List.filter (publishedAt d) l) ≤ 1)%nat.
Proof.
  induction l as [|x l IH]; [simpl; lia|]. rewrite fmap_cons, NoDup_cons.
  intros [Hx Hl]. simpl. destruct (publishedAt d x) eqn:E; [|by apply IH].
  apply publishedAt_true in E. rewrite filter_none; [simpl; lia|].
  intros q Hq. destruct (publishedAt d q) eqn:E'; [|done].
  apply publishedAt_true in E'. destruct Hx. apply list_elem_of_fmap.
  exists q. split; [congruence|done].
Qed.

Lemma Permutation_short {A : Type} (l k : list A) :
  l ≡ₚ k → (length l ≤ 1)%nat → l = k.
Proof.
  destruct l as [|x [|y l]]; simpl; intros Hp Hlen; [| |lia].
  - by apply Permutation_nil_l.
  - by apply Permutation_singleton_l.
Qed.

Lemma filter_bool_Permutation {A : Type} (f : A → bool) (l k : list A) :
  l ≡ₚ k → List.filter f l ≡ₚ List.filter f k.
Proof.
  intros Hp.
  rewrite !(length_filter_bool f (λ x, f x = true) _ (λ x, reflexivity _)).
  by rewrite Hp.
Qed.

(** X7: the order of the store does not matter when every non-draft
    post has a valid publication date and no two of them share one: two
    stores that hold the same posts, in any order, give the same
    outcome. *)
Theorem GET_order_independent (context : APIContext.t) (w1 w2 : World) :
  collections w1 "blog" ≡ₚ collections w2 "blog" →
  Forall valid (blogOf w1) →
  NoDup (timeOf <$> blogOf w1) →
  fst (GET context w1) = fst (GET context w2).
Proof.
  intros Hperm Hv Hnd.
  assert (blogOf w1 ≡ₚ blogOf w2) as Hb by by apply filter_bool_Permutation.
  assert (Forall valid (blogOf w2)) as Hv2 by by rewrite <- Hb.
  destruct (sort_byPubDate_valid _ Hv) as (s1 & Hs1 & Hss1 & Hf1).
  destruct (sort_byPubDate_valid _ Hv2) as (s2 & Hs2 & Hss2 & Hf2).
  rewrite !GET_fst, Hs1, Hs2. simpl. do 3 f_equal.
  apply stable_sorted_unique; [| |done..|].
  - by rewrite (sort_Permutation _ _ _ Hs1).
  - by rewrite (sort_Permutation _ _ _ Hs2).
  - intros d. rewrite Hf1, Hf2.
    apply Permutation_short; [by apply filter_bool_Permutation|].
    by apply filter_publishedAt_NoDup.
Qed.

Lemma GET_order_independent_witness :
  fst (GET noSite (storeOf [postA; postB; postC]))
  = fst (GET noSite (storeOf [postB; postA; postC])).
Proof.
  apply (GET_order_independent noSite (storeOf [postA; postB; postC])
           (storeOf [postB; postA; postC])).
  - change ([postA; postB; postC] ≡ₚ [postB; postA; postC]). apply perm_swap.
  - repeat constructor; eexists; reflexivity.
  - apply (bool_decide_unpack _). vm_compute. exact I.
Defined.

Lemma sameFeedFields_notDraft p q :
  sameFeedFields p q → notDraft p = notDraft q.
Proof. intros (_ & _ & _ & _ & _ & Hd). unfold notDraft. by rewrite Hd. Qed.

Lemma sameFeedFields_byPubDate p q p' q' :
  sameFeedFields p p' → sameFeedFields q q' → byPubDate p q = byPubDate p' q'.
Proof.
  intros (_ & _ & _ & Hp & _) (_ & _ & _ & Hq & _).
  unfold byPubDate. by rewrite Hp, Hq.
Qed.

Lemma sameFeedFields_toItem p q : sameFeedFields p q → toItem p = toItem q.
Proof.
  intros (Hs & Ht & Hd & Hp & Hg & _). unfold toItem.
  by rewrite Hs, Ht, Hd, Hp, Hg.
Qed.

Lemma sameFeedFields_filter l k :
  Forall2 sameFeedFields l k →
  Forall2 sameFeedFields (List.filter notDraft l) (List.filter notDraft k).
Proof.
  induction 1 as [|p q l k Hpq Hlk IH]; [constructor|]. simpl.
  rewrite <- (sameFeedFields_notDraft _ _ Hpq).
  destruct (notDraft p); [by constructor|done].
Qed.

Lemma sameFeedFields_Compare p q p' q' :
  sameFeedFields p p' → sameFeedFields q q' →
  Compare byPubDate p q = Compare byPubDate p' q'.
Proof.
  intros Hp Hq. unfold Compare. by rewrite (sameFeedFields_byPubDate _ _ _ _ Hp Hq).
Qed.

Lemma sameFeedFields_countRun isDescending prev prev' rest rest' :
  sameFeedFields prev prev' → Forall2 sameFeedFields rest rest' →
  countRun byPubDate isDescending prev rest
  = countRun byPubDate isDescending prev' rest'.
Proof.
  intros Hp Hr. revert prev prev' Hp.
  induction Hr as [|x x' rest rest' Hx Hr IH]; intros prev prev' Hp; simpl; [done|].
  rewrite (sameFeedFields_Compare _ _ _ _ Hx Hp).
  destruct (Compare byPubDate x' prev') as [order|e]; simpl; [|done].
  destruct (if isDescending then 0 <=? order else order <? 0); [done|].
  by rewrite (IH x x' Hx).
Qed.

Lemma sameFeedFields_search fuel pivot pivot' sorted sorted' left right :
  sameFeedFields pivot pivot' → Forall2 sameFeedFields sorted sorted' →
  search byPubDate fuel pivot sorted left right
  = search byPubDate fuel pivot' sorted' left right.
Proof.
  intros Hp Hs. revert left right.
  induction fuel as [|fuel IH]; intros left right; simpl; [done|].
  destruct (left <? right)%nat; [|done].
  destruct (sorted !! (left + (right - left) / 2)%nat) as [y|] eqn:Hy.
  - destruct (Forall2_lookup_l _ _ _ _ _ Hs Hy) as (y' & -> & Hyy).
    rewrite (sameFeedFields_Compare _ _ _ _ Hp Hyy).
    destruct (Compare byPubDate pivot' y') as [order|e]; simpl; [|done].
    destruct (order <? 0); apply IH.
  - apply lookup_ge_None in Hy. rewrite (Forall2_length _ _ _ Hs) in Hy.
    apply lookup_ge_None in Hy. by rewrite Hy.
Qed.

Lemma sameFeedFields_BinaryInsertionSort sorted sorted' rest rest' :
  Forall2 sameFeedFields sorted sorted' → Forall2 sameFeedFields rest rest' →
  match BinaryInsertionSort byPubDate sorted rest,
        BinaryInsertionSort byPubDate sorted' rest' with
  | Return s, Return s' => Forall2 sameFeedFields s s'
  | Throw _, Throw _ => True
  | _, _ => False
  end.
Proof.
  intros Hs Hr. revert sorted sorted' Hs.
  induction Hr as [|x x' rest rest' Hx Hr IH]; intros sorted sorted' Hs; simpl; [done|].
  rewrite (sameFeedFields_search _ _ _ _ _ _ _ Hx Hs), (Forall2_length _ _ _ Hs).
  destruct (search byPubDate (length sorted') x' sorted' 0 (length sorted'))
    as [pos|e]; simpl; [|done].
  apply IH. apply Forall2_app; [by apply Forall2_take|].
  constructor; [done|by apply Forall2_drop].
Qed.

Lemma sameFeedFields_sort l l' :
  Forall2 sameFeedFields l l' →
  match sort byPubDate l, sort byPubDate l' with
  | Return s, Return s' => Forall2 sameFeedFields s s'
  | Throw _, Throw _ => True
  | _, _ => False
  end.
Proof.
  intros H. unfold sort, CountAndMakeRun.
  destruct H as [|x x' l l' Hx H]; [simpl; constructor|].
  destruct H as [|y y' l l' Hy H]; [simpl; by constructor; [|constructor]|].
  rewrite (sameFeedFields_Compare _ _ _ _ Hy Hx).
  destruct (Compare byPubDate y' x') as [order|e]; simpl; [|done].
  rewrite (sameFeedFields_countRun _ _ _ _ _ Hy H).
  destruct (countRun byPubDate (order <? 0) y' l') as [n|e]; simpl; [|done].
  assert (Forall2 sameFeedFields (x :: y :: take n l) (x' :: y' :: take n l'))
    as Hrun by (repeat (constructor; [done|]); by apply Forall2_take).
  apply sameFeedFields_BinaryInsertionSort.
  - destruct (order <? 0); [by apply Forall2_reverse|done].
  - by apply Forall2_drop.
Qed.

(** X8: the handler reads neither the body nor [updatedDate] of a post:
    two stores whose posts agree, position by position, on the slug, the
    title, the description, the publication date, the tags and the draft
    flag give the same outcome. *)
Theorem GET_ignores_body (context : APIContext.t) (w1 w2 : World) :
  Forall2 sameFeedFields (collections w1 "blog") (collections w2 "blog") →
  fst (GET context w1) = fst (GET context w2).
Proof.
  intros H. apply sameFeedFields_filter, sameFeedFields_sort in H.
  rewrite !GET_fst. fold (blogOf w1) (blogOf w2) in H.
  destruct (sort byPubDate (blogOf w1)) as [s1|[]],
           (sort byPubDate (blogOf w2)) as [s2|[]]; simpl; try done.
  assert (List.map toItem s1 = List.map toItem s2) as ->; [|done].
  induction H as [|p q s1 s2 Hpq _ IH]; [done|]. simpl.
  by rewrite (sameFeedFields_toItem _ _ Hpq), IH.
Qed.

Lemma GET_ignores_body_witness :
  fst (GET noSite (storeOf [postA; postB])) = fst (GET noSite (storeOf [postA'; postB])).
Proof.
  apply (GET_ignores_body noSite (storeOf [postA; postB]) (storeOf [postA'; postB])).
  repeat constructor.
Defined.

(** X9: a draft in the store is as good as absent, with or without a
    date: with a draft added at any position the outcome is the same. *)
Theorem GET_ignores_draft (context : APIContext.t) (w1 w2 : World)
    (l1 l2 : list CollectionEntry) (p : CollectionEntry) :
  collections w1 "blog" = (l1 ++ l2)%list →
  collections w2 "blog" = (l1 ++ p :: l2)%list →
  BlogData.draft (data p) = Some true →
  fst (GET context w1) = fst (GET context w2).
Proof.
  intros H1 H2 Hp. rewrite !GET_fst. unfold blogOf.
  rewrite H1, H2, !List.filter_app. simpl. unfold notDraft at 4. by rewrite Hp.
Qed.

Lemma GET_ignores_draft_witness :
  fst (GET noSite (storeOf [postA; postB])) = fst (GET noSite (storeOf [postA; postD; postB])).
Proof.
  apply (GET_ignores_draft noSite (storeOf [postA; postB])
           (storeOf [postA; postD; postB]) [postA] [postB] postD); reflexivity.
Defined.

(** *** Publishing a post *)

Lemma filter_publishedAt_older dp l :
  Forall (λ q, ∃ dq, timeOf q = Some dq ∧ dq < dp) l →
  List.filter (publishedAt dp) l = [].
Proof.
  intros H. apply filter_publishedAt_other.
  eapply Forall_impl; [exact H|]. intros q (dq & Hq & Hlt).
  exists dq. split; [done|lia].
Qed.

(** X10: a new post that is not a draft and whose valid date is later
    than that of every non-draft post of the store, added at any position,
    becomes the first entry; the entries after it are those of the
    document before, in the same order. *)
Theorem GET_publish_newest (context : APIContext.t) (w1 w2 : World)
    (l1 l2 : list CollectionEntry) (p : CollectionEntry) (dp : Z) :
  collections w1 "blog" = (l1 ++ l2)%list →
  collections w2 "blog" = (l1 ++ p :: l2)%list →
  BlogData.draft (data p) ≠ Some true →
  timeOf p = Some dp →
  Forall (λ q, ∃ dq, timeOf q = Some dq ∧ dq < dp) (blogOf w1) →
  ∃ doc1 w1' doc2 w2',
    GET context w1 = (Return doc1, w1') ∧
    GET context w2 = (Return doc2, w2') ∧
    RSSOptions.items doc2 = toItem p :: RSSOptions.items doc1.
Proof.
  intros H1 H2 Hnd Hp Hold. apply notDraft_spec in Hnd.
  assert (Forall valid (blogOf w1)) as Hd1.
  { eapply Forall_impl; [exact Hold|]. intros q (dq & Hq & _). by exists dq. }
  assert (blogOf w1 = List.filter notDraft l1 ++ List.filter notDraft l2)%list as Hb1.
  { unfold blogOf. by rewrite H1, List.filter_app. }
  assert (blogOf w2 = List.filter notDraft l1 ++ p :: List.filter notDraft l2)%list as Hb2.
  { unfold blogOf. rewrite H2, List.filter_app. simpl. by rewrite Hnd. }
  assert (valid p) as Hdp by by exists dp.
  assert (Forall valid (blogOf w2)) as Hd2.
  { rewrite Hb1 in Hd1. rewrite Hb2. apply Forall_app in Hd1 as [Ha Hb].
    apply Forall_app. split; [done|]. by constructor. }
  destruct (sort_byPubDate_valid _ Hd1) as (s1 & Hs1 & Hss1 & Hf1).
  destruct (sort_byPubDate_valid _ Hd2) as (s2 & Hs2 & Hss2 & Hf2).
  assert (s2 = p :: s1) as ->.
  { apply stable_sorted_unique.
    - by rewrite (sort_Permutation _ _ _ Hs2).
    - constructor; [done|]. by rewrite (sort_Permutation _ _ _ Hs1).
    - done.
    - constructor; [done|].
      rewrite (sort_Permutation _ _ _ Hs1).
      eapply Forall_impl; [exact Hold|]. intros q (dq & Hq & Hlt).
      exists dp, dq. repeat split; [done..|lia].
    - intros d. simpl. rewrite Hf1, Hf2.
      rewrite Hb2, List.filter_app. simpl.
      destruct (publishedAt d p) eqn:E.
      + apply publishedAt_true in E. rewrite Hp in E. injection E as <-.
        rewrite Hb1 in Hold. apply Forall_app in Hold as [Ha Hb].
        rewrite Hb1, List.filter_app.
        by rewrite !(filter_publishedAt_older dp _ Ha).
      + by rewrite Hb1, List.filter_app. }
  rewrite (GET_Return _ _ _ Hs1), (GET_Return _ _ _ Hs2).
  eexists _, _, _, _. split; [done|]. split; [done|]. done.
Qed.

Lemma GET_publish_newest_witness :
  ∃ doc1 w1' doc2 w2',
    GET noSite (storeOf [postA; postC; postX]) = (Return doc1, w1') ∧
    GET noSite (storeOf [postA; postB; postC; postX]) = (Return doc2, w2') ∧
    RSSOptions.items doc2 = toItem postB :: RSSOptions.items doc1.
Proof.
  apply (GET_publish_newest noSite (storeOf [postA; postC; postX])
           (storeOf [postA; postB; postC; postX]) [postA] [postC; postX] postB mar1);
    [reflexivity|reflexivity|discriminate|reflexivity|].
  change (blogOf (storeOf [postA; postC; postX])) with [postA; postX].
  repeat constructor; exists jan1; (split; [reflexivity|vm_compute; reflexivity]).
Defined.
